(** * Block Blast clone: the rules engine of [src/script.js]

    A shallow embedding of class [Game]: the 8x8 grid, the tray of three
    pieces, placement validation, line clearing and scoring, the level
    tracker, rotation and the game-over check.

    Conventions of the embedding.
    - A JS array is a list, read with stdpp's lookup [!!]; a write goes
      through [write2], which says what happens out of range.
    - [this] is a [Game] record passed explicitly; a method that can raise
      (a [TypeError] on [undefined]) returns [option], [None] standing for
      the exception.
    - The DOM is not modelled; the texts and the modal the methods set are
      recorded, newest first, in the [trace] field.
    - [Math.random()] is an explicit argument: a double of [0,1), held as
      the rational it is.  The product the engine takes of a draw is
      rounded to the nearest double, as [*] does. *)

From Stdlib Require Import ZArith QArith Qabs Qround Lia Lqa.
From stdpp Require Import base option list strings.

Local Open Scope Z_scope.

(** ** Data model *)

Module CONFIG.
Definition GRID_SIZE : nat := 8.
Definition COLORS : list string :=
  ["#FF5733"; "#33FF57"; "#3357FF"; "#F333FF"; "#33FFF5"; "#FFD133"]%string.
End CONFIG.
Import CONFIG.

(** A grid cell is [null] ([None]) or a colour string. *)
Abbreviation Cell := (option string).
Abbreviation Grid := (list (list Cell)).

(** A shape matrix holds the numbers 0 and 1. *)
Abbreviation Matrix := (list (list Z)).

Record Piece := mkPiece { shape : Matrix; color : string }.

(** What the methods show or persist outside the engine state. *)
Inductive Event :=
| ScoreShown (s : Z)        (* scoreEl.innerText = score *)
| HighScoreShown (s : Z)    (* highScoreEl.innerText = highScore *)
| HighScoreStored (s : Z)   (* localStorage.setItem('blockBlastHighScore', _) *)
| LevelShown (l : Z)        (* levelEl.innerText = level *)
| FloatingText (points : Z) (* showFloatingText(`+${points}`, ..) *)
| GameOverShown (final : Z) (* triggerGameOver: final score, modal shown *)
| ModalHidden.              (* gameOverModal.classList.add('hidden') *)

Record Game := mkGame {
  grid : Grid;
  score : Z;
  highScore : Z;
  level : Z;
  activePieces : list (option Piece);
  trace : list Event
}.

(** [this.pxPerLine], set to 100 by the constructor and never reassigned. *)
Definition pxPerLine : Z := 100.

Definition with_grid (g : Game) (x : Grid) : Game :=
  mkGame x (score g) (highScore g) (level g) (activePieces g) (trace g).
Definition with_score (g : Game) (x : Z) : Game :=
  mkGame (grid g) x (highScore g) (level g) (activePieces g) (trace g).
Definition with_highScore (g : Game) (x : Z) : Game :=
  mkGame (grid g) (score g) x (level g) (activePieces g) (trace g).
Definition with_level (g : Game) (x : Z) : Game :=
  mkGame (grid g) (score g) (highScore g) x (activePieces g) (trace g).
Definition with_pieces (g : Game) (x : list (option Piece)) : Game :=
  mkGame (grid g) (score g) (highScore g) (level g) x (trace g).
Definition emit (e : Event) (g : Game) : Game :=
  mkGame (grid g) (score g) (highScore g) (level g) (activePieces g)
         (e :: trace g).

(** ** Arrays and loops *)

(** [m[r][c]] as a read.  [None] is JS [undefined] ([c] past the end of the
    row); an absent row [r], where JS raises, is read as [None] too: every
    grid of the program has [GRID_SIZE] rows and every loop over a shape
    stays below its [length]. *)
Definition at2 {A} (m : list (list A)) (r c : nat) : option A :=
  m !! r ≫= (.!! c).

(** [m[r][c] = v] as a write.  An absent row raises in JS and a column past
    the end of the row would grow the array: both are [None] here. *)
Definition write2 {A} (m : list (list A)) (r c : nat) (v : A)
  : option (list (list A)) :=
  row ← m !! r;
  if decide (c < length row)%nat then Some (<[r := <[c := v]> row]> m)
  else None.

(** The same write at integer indices; a negative index is no array slot. *)
Definition writeZ {A} (m : list (list A)) (r c : Z) (v : A)
  : option (list (list A)) :=
  if (0 <=? r) && (0 <=? c) then write2 m (Z.to_nat r) (Z.to_nat c) v
  else None.

(** [xs.forEach(body)] and [for (let i = 0; i < n; i++) body] over a state
    that the body updates or fails on. *)
Definition forEach {A S} (xs : list A) (body : A → S → option S) (s : S)
  : option S :=
  foldl (λ acc x, acc ≫= body x) (Some s) xs.

Definition for_ {S} (n : nat) (body : nat → S → option S) (s : S)
  : option S :=
  forEach (seq 0 n) body s.

(** [matrix[0].length], read only under a loop over the rows of [matrix]. *)
Definition cols0 {A} (m : list (list A)) : nat :=
  from_option length 0%nat (m !! 0%nat).

(** ** isValidPlacement (lines 331-352) *)

(** The body of the two loops at cell (r,c): [false] is the early
    [return false], [true] lets the loops go on. *)
Definition cellFits (gr : Grid) (startCol startRow : Z) (sh : Matrix)
    (r c : nat) : bool :=
  if bool_decide (at2 sh r c = Some 1) then
    let targetR := startRow + Z.of_nat r in
    let targetC := startCol + Z.of_nat c in
    if (targetR <? 0) || (targetR >=? Z.of_nat GRID_SIZE) ||
       (targetC <? 0) || (targetC >=? Z.of_nat GRID_SIZE)
    then false
    else if bool_decide (at2 gr (Z.to_nat targetR) (Z.to_nat targetC) ≠ Some None)
    then false
    else true
  else true.

Definition isValidPlacement (gr : Grid) (startCol startRow : Z)
    (piece : option Piece) : bool :=
  match piece with
  | None => false
  | Some p =>
      forallb (λ r,
        forallb (λ c, cellFits gr startCol startRow (shape p) r c)
                (seq 0 (cols0 (shape p))))
        (seq 0 (length (shape p)))
  end.

(** ** updateScore, updateLevel (lines 562-584) *)

Definition updateLevel (lvl : Z) (g : Game) : Game :=
  emit (LevelShown lvl) (with_level g lvl).

Definition updateScore (newScore : Z) (g : Game) : Game :=
  let g := emit (ScoreShown newScore) (with_score g newScore) in
  let g :=
    if highScore g <? score g
    then emit (HighScoreStored (score g))
           (emit (HighScoreShown (score g)) (with_highScore g (score g)))
    else g in
  let requiredScore := level g * 500 in
  if requiredScore <=? score g then updateLevel (level g + 1) g else g.

(** ** checkGameOver, triggerGameOver (lines 529-560) *)

Definition triggerGameOver (g : Game) : Game :=
  emit (GameOverShown (score g)) g.

(** The three nested loops with their [break]s: the flag ends [true] as
    soon as one piece validates at one anchor. *)
Definition canPlaceAny (g : Game) : bool :=
  existsb (λ slot,
    match slot with
    | None => false
    | Some piece =>
        existsb (λ r,
          existsb (λ c,
            isValidPlacement (grid g) (Z.of_nat c) (Z.of_nat r) (Some piece))
            (seq 0 GRID_SIZE))
          (seq 0 GRID_SIZE)
    end) (activePieces g).

Definition checkGameOver (g : Game) : Game :=
  if negb (canPlaceAny g) &&
     existsb (λ p, bool_decide (p ≠ None)) (activePieces g)
  then triggerGameOver g
  else g.

(** ** checkForLines, clearLines (lines 414-498) *)

(** [this.grid[r].every(cell => cell !== null)] *)
Definition rowFull (gr : Grid) (r : nat) : bool :=
  match gr !! r with
  | Some cells => forallb (λ cell, bool_decide (cell ≠ None)) cells
  | None => false
  end.

(** The inner loop of "Check Cols": [full] stays [true] unless some
    [this.grid[r][c] === null]. *)
Definition colFull (gr : Grid) (c : nat) : bool :=
  forallb (λ r, negb (bool_decide (at2 gr r c = Some None))) (seq 0 GRID_SIZE).

Definition rowsToClear (gr : Grid) : list nat :=
  List.filter (rowFull gr) (seq 0 GRID_SIZE).

Definition colsToClear (gr : Grid) : list nat :=
  List.filter (colFull gr) (seq 0 GRID_SIZE).

(** [Set.prototype.add] on the keys [`${r},${c}`], kept as pairs: a key
    already present is not added again, a new one goes last. *)
Definition setAdd (s : list (nat * nat)) (key : nat * nat)
  : list (nat * nat) :=
  if decide (key ∈ s) then s else s ++ [key].

Definition cellsToClear (rows cols : list nat) : list (nat * nat) :=
  let s :=
    foldl (λ s r, foldl (λ s c, setAdd s (r, c)) s (seq 0 GRID_SIZE))
          [] rows in
  foldl (λ s c, foldl (λ s r, setAdd s (r, c)) s (seq 0 GRID_SIZE))
        s cols.

(** The "Logic clear" of the [cellsToClear.forEach]. *)
Definition clearCells (cells : list (nat * nat)) (gr : Grid) : option Grid :=
  forEach cells (λ key gr, write2 gr key.1 key.2 None) gr.

Definition multiplier (lineCount : Z) : Q :=
  let m := 1%Q in
  let m := if lineCount =? 2 then 1.5%Q else m in
  let m := if lineCount =? 3 then 2%Q else m in
  let m := if lineCount >=? 4 then 3%Q else m in
  m.

(** [Math.round]: the nearest integer, a half rounding up. *)
Definition Math_round (x : Q) : Z := Qfloor (x + (1 # 2))%Q.

Definition Math_floor (x : Q) : Z := Qfloor x.

Definition linePoints (lineCount : Z) : Z :=
  Math_round (inject_Z (lineCount * pxPerLine) * multiplier lineCount)%Q.

Definition showFloatingText (points : Z) (g : Game) : Game :=
  emit (FloatingText points) g.

Definition clearLines (rows cols : list nat) (g : Game) : option Game :=
  gr ← clearCells (cellsToClear rows cols) (grid g);
  let g := with_grid g gr in
  let lineCount := Z.of_nat (length rows + length cols) in
  let points := linePoints lineCount in
  let g := updateScore (score g + points) g in
  Some (if 0 <? lineCount then showFloatingText points g else g).

Definition checkForLines (g : Game) : option Game :=
  let rows := rowsToClear (grid g) in
  let cols := colsToClear (grid g) in
  if (0 <? length rows)%nat || (0 <? length cols)%nat
  then clearLines rows cols g
  else Some g.

(** ** placePiece, tryPlacePiece (lines 381-412) *)

(** The two loops of [placePiece], writing the colour into the grid. *)
Definition fillCells (col row : Z) (piece : Piece) (gr : Grid) : option Grid :=
  for_ (length (shape piece)) (λ r gr,
    for_ (cols0 (shape piece)) (λ c gr,
      if bool_decide (at2 (shape piece) r c = Some 1)
      then writeZ gr (row + Z.of_nat r) (col + Z.of_nat c) (Some (color piece))
      else Some gr) gr) gr.

Definition placePiece (col row : Z) (piece : Piece) (g : Game) : option Game :=
  gr ← fillCells col row piece (grid g);
  checkForLines (with_grid g gr).

(** [col] and [row] are what the method rounds out of the position of the
    dragged visual; they are arguments here. *)
Definition tryPlacePiece (col row : Z) (piece : Piece) (g : Game)
  : option (bool * Game) :=
  if isValidPlacement (grid g) col row (Some piece)
  then g' ← placePiece col row piece g; Some (true, g')
  else Some (false, g).

(** ** rotateMatrix, rotateAllPieces (lines 586-628) *)

(** [matrix[0]] of an empty matrix is [undefined] and its [length] raises.
    A cell [matrix[r][c]] missing from a short row would be stored as
    [undefined], which a [Matrix] cannot hold: [None] as well. *)
Definition rotateMatrix (matrix : Matrix) (clockwise : bool) : option Matrix :=
  row0 ← matrix !! 0%nat;
  let rows := length matrix in
  let cols := length row0 in
  let newRows := cols in
  let newCols := rows in
  let newMatrix := replicate newRows (replicate newCols 0) in
  for_ rows (λ r newMatrix,
    for_ cols (λ c newMatrix,
      v ← at2 matrix r c;
      if clockwise
      then write2 newMatrix c (rows - 1 - r)%nat v
      else write2 newMatrix (cols - 1 - c)%nat r v) newMatrix) newMatrix.

(** The [forEach] replaces the shape of every piece of the tray and keeps
    the piece object, hence its colour. *)
Definition rotatePiece (clockwise : bool) (slot : option Piece)
  : option (option Piece) :=
  match slot with
  | Some piece =>
      sh ← rotateMatrix (shape piece) clockwise;
      Some (Some (mkPiece sh (color piece)))
  | None => Some None
  end.

Definition rotateAllPieces (clockwise : bool) (g : Game) : option Game :=
  pieces ← mapM (rotatePiece clockwise) (activePieces g);
  Some (checkGameOver (with_pieces g pieces)).

(** ** generateRandomPiece, spawnPieces (lines 192-267) *)

Definition SMALL_BLOCKS : list Matrix :=
  [ [[1]];
    [[1; 1]];
    [[1]; [1]] ].

Definition TETROMINOES : list Matrix :=
  [ [[1; 1; 1; 1]];
    [[1]; [1]; [1]; [1]];
    [[1; 1]; [1; 1]];
    [[0; 1; 0]; [1; 1; 1]];
    [[1; 0]; [1; 1]; [1; 0]];
    [[0; 1; 1]; [1; 1; 0]];
    [[1; 1; 0]; [0; 1; 1]];
    [[1; 0; 0]; [1; 1; 1]];
    [[0; 0; 1]; [1; 1; 1]];
    [[1; 1]; [1; 0]; [1; 0]];
    [[1; 1]; [0; 1]; [0; 1]] ].

Definition COMPLEX_SHAPES : list Matrix :=
  [ [[1; 1; 1]; [1; 1; 1]];
    [[1; 1; 1]; [1; 0; 1]];
    [[1; 0; 0]; [1; 0; 0]; [1; 1; 1]];
    [[0; 0; 1]; [0; 0; 1]; [1; 1; 1]] ].

(** [x < y] on the numbers drawn. *)
Definition Qltb (x y : Q) : bool := negb (Qle_bool y x).

(** The three calls of [Math.random()] of one [generateRandomPiece], in the
    order the method makes them. *)
Record Draws := mkDraws { drawPool : Q; drawShape : Q; drawColor : Q }.

(** The numbers of the engine are doubles.  Scores, levels and indices
    are integers far below 2^53 and the combo products are halves of such,
    all exact; the product [Math.random() * xs.length] is not: [*] returns
    the double nearest to the real product, a tie going to the even
    mantissa. *)

(** The nearest integer, a half going to the even one. *)
Definition roundHalfEven (q : Q) : Z :=
  let f := Qfloor q in
  match (q - inject_Z f ?= 1 # 2)%Q with
  | Lt => f
  | Gt => f + 1
  | Eq => if Z.even f then f else f + 1
  end.

(** The gap between the doubles around [y]: 2^(e-52) when
    2^e <= |y| < 2^(e+1), and 2^-1074 for the subnormals, under 2^-1022.
    [s] is |y| counted in units of 2^-1074, of binary logarithm e + 1074. *)
Definition ulp (y : Q) : Q :=
  let s := Qfloor (Qabs y * inject_Z (2 ^ 1074)) in
  inject_Z (2 ^ Z.max (Z.log2 s - 52) 0) / inject_Z (2 ^ 1074).

(** The double nearest to [y], for a [y] of the finite range. *)
Definition roundDouble (y : Q) : Q :=
  (inject_Z (roundHalfEven (y / ulp y)) * ulp y)%Q.

(** [x] is the value of a double. *)
Definition isDouble (x : Q) : Prop := roundDouble x == x.

(** [xs[Math.floor(x * xs.length)]]; [undefined] is [None]. *)
Definition pick {A} (xs : list A) (x : Q) : option A :=
  let i := Math_floor (roundDouble (x * inject_Z (Z.of_nat (length xs)))) in
  if 0 <=? i then xs !! Z.to_nat i else None.

(** The pool chosen by the first draw.  The doubles written 0.4, 0.2 and
    0.8 lie just above these rationals with no double in between, so a
    draw is under the double exactly when it is under the rational
    (lemma [literal_thresholds]). *)
Definition shapesPool (lvl : Z) (rand : Q) : list Matrix :=
  if lvl <? 3 then
    if Qltb rand 0.4 then SMALL_BLOCKS else TETROMINOES
  else
    if Qltb rand 0.2 then SMALL_BLOCKS
    else if Qltb rand 0.8 then TETROMINOES
    else COMPLEX_SHAPES.

(** A piece whose shape or colour is [undefined] is no [Piece]: [None]. *)
Definition generateRandomPiece (g : Game) (d : Draws) : option Piece :=
  sh ← pick (shapesPool (level g) (drawPool d)) (drawShape d);
  co ← pick COLORS (drawColor d);
  Some (mkPiece sh co).

Definition spawnPieces (d1 d2 d3 : Draws) (g : Game) : option Game :=
  p1 ← generateRandomPiece g d1;
  p2 ← generateRandomPiece g d2;
  p3 ← generateRandomPiece g d3;
  Some (checkGameOver (with_pieces g [Some p1; Some p2; Some p3])).

(** ** constructor, init, restartGame, onUp (lines 14-58, 154-181) *)

Definition emptyGrid : Grid := replicate GRID_SIZE (replicate GRID_SIZE None).

(** [new Game()]: [stored] is what [localStorage] holds for the high score,
    [null] giving 0. *)
Definition newGame (stored : option Z) (d1 d2 d3 : Draws) : option Game :=
  let g := mkGame emptyGrid 0 (default 0 stored) 1 [] [] in
  let g := updateScore 0 g in
  let g := updateLevel 1 g in
  let g := emit (HighScoreShown (highScore g)) g in
  spawnPieces d1 d2 d3 g.

Definition restartGame (d1 d2 d3 : Draws) (g : Game) : option Game :=
  let g := mkGame emptyGrid 0 (highScore g) 1 [] (trace g) in
  let g := updateScore 0 g in
  let g := updateLevel 1 g in
  let g := emit ModalHidden g in
  spawnPieces d1 d2 d3 g.

(** The drop of the piece dragged from slot [index] at anchor (col,row).
    [onDown] starts no drag from a used slot, and then [onUp] returns at
    once. *)
Definition onUp (index : nat) (col row : Z) (d1 d2 d3 : Draws) (g : Game)
  : option Game :=
  match activePieces g !! index with
  | Some (Some piece) =>
      '(placed, g) ← tryPlacePiece col row piece g;
      if (placed : bool) then
        let g := with_pieces g (<[index := None]> (activePieces g)) in
        if forallb (λ p, bool_decide (p = None)) (activePieces g)
        then spawnPieces d1 d2 d3 g
        else Some (checkGameOver g)
      else Some g
  | _ => Some g
  end.

(** ** The engine as a transition system *)

Inductive Op :=
| Drop (index : nat) (col row : Z) (d1 d2 d3 : Draws)
| Rotate (clockwise : bool)
| Restart (d1 d2 d3 : Draws).

Definition step (g : Game) (op : Op) : option Game :=
  match op with
  | Drop index col row d1 d2 d3 => onUp index col row d1 d2 d3 g
  | Rotate clockwise => rotateAllPieces clockwise g
  | Restart d1 d2 d3 => restartGame d1 d2 d3 g
  end.

(** The states a session goes through, from [new Game()] on. *)
Inductive reachable : Game → Prop :=
| reachable_new stored d1 d2 d3 g :
    newGame stored d1 d2 d3 = Some g → reachable g
| reachable_step g op g' :
    reachable g → step g op = Some g' → reachable g'.


(** ** Vocabulary of the statements *)

(** Every row has the length of row 0. *)
Definition rectangular {A} (m : list (list A)) : Prop :=
  Forall (λ row, length row = cols0 m) m.

(** [GRID_SIZE] rows of [GRID_SIZE] cells. *)
Definition wf_grid (gr : Grid) : Prop :=
  length gr = GRID_SIZE ∧ Forall (λ row, length row = GRID_SIZE) gr.

(** Cell (r,c) of a shape matrix is occupied. *)
Definition occupied (sh : Matrix) (r c : nat) : Prop := at2 sh r c = Some 1.

(** The numbers of [g'] are those of [g], or went through one call
    [updateScore(this.score + points)] with [points] not negative. *)
Definition scored (g g' : Game) : Prop :=
  (score g' = score g ∧ level g' = level g ∧ highScore g' = highScore g) ∨
  ∃ points, 0 ≤ points ∧
    score g' = score g + points ∧
    level g' = level (updateScore (score g + points) g) ∧
    highScore g' = Z.max (highScore g) (score g + points).


(** A state with score 0 and level 1 on which one piece completes two rows
    and two columns: rows 0 and 1 miss their first two cells, columns 0 and
    1 their first two cells. *)
Definition fourLinesGame : Game :=
  let x := Some "#33FF57"%string in
  let top := [None; None; x; x; x; x; x; x] in
  let low := [x; x; None; None; None; None; None; None] in
  mkGame [top; top; low; low; low; low; low; low] 0 0 1
         [Some (mkPiece [[1; 1]; [1; 1]] "#FF5733"); None; None] [].

(** The state [new Game()] builds on an empty storage when every draw of
    [Math.random()] is 0. *)
Definition zeroDraws : Draws := mkDraws 0 0 0.

Definition firstGame : Game :=
  let one := Some (mkPiece [[1]] "#FF5733") in
  mkGame emptyGrid 0 0 1 [one; one; one]
         [HighScoreShown 0; LevelShown 1; ScoreShown 0].

Definition squarePiece : Piece := mkPiece [[1; 1]; [1; 1]] "#FF5733".

(** [fourLinesGame] after the 2x2 piece went to the corner: the four lines
    are cleared, which empties the grid, and 1200 points are awarded. *)
Definition fourLinesCleared : Game :=
  showFloatingText 1200 (updateScore 1200 (with_grid fourLinesGame emptyGrid)).

(** The same after [onUp] took the piece off the tray and refilled it. *)
Definition fourLinesDropped : Game :=
  let one := Some (mkPiece [[1]] "#FF5733") in
  with_pieces fourLinesCleared [one; one; one].

(** Grid cell (r,c) holds a colour. *)
Definition filled (gr : Grid) (r c : nat) : Prop :=
  ∃ co, at2 gr r c = Some (Some co).

(** The multiplier table as the specification words it:
    1 line x1, 2 lines x1.5, 3 lines x2, 4 or more x3. *)
Definition comboMultiplier (lineCount : Z) : Q :=
  if lineCount =? 1 then 1%Q
  else if lineCount =? 2 then 1.5%Q
  else if lineCount =? 3 then 2%Q
  else 3%Q.

(** Some unused piece of the tray validates at some anchor of the grid. *)
Definition fitsSomewhere (g : Game) : Prop :=
  ∃ i piece r c,
    activePieces g !! i = Some (Some piece) ∧
    (r < 8)%nat ∧ (c < 8)%nat ∧
    isValidPlacement (grid g) (Z.of_nat c) (Z.of_nat r) (Some piece) = true.

(** The tray holds an unused piece. *)
Definition someUnused (g : Game) : Prop :=
  ∃ i piece, activePieces g !! i = Some (Some piece).

(** A full grid with a tray of one 1x1 piece, and the empty tray. *)
Definition stuckGame : Game :=
  mkGame (replicate 8 (replicate 8 (Some "#3357FF"%string))) 300 300 1
         [None; Some (mkPiece [[1]] "#FF5733"); None] [].

(** Where the specification sends cell (r,c) of an R x C matrix:
    clockwise to (c, R-1-r), counter-clockwise to (C-1-c, r). *)
Definition rotateTarget (clockwise : bool) (R C r c : nat) : nat * nat :=
  if clockwise then (c, (R - 1 - r)%nat) else ((C - 1 - c)%nat, r).

(** Two slots of the tray before and after a rotation: a used slot stays
    used, a piece keeps its colour and has its matrix rotated. *)
Definition rotatedSlot (clockwise : bool) (slot slot' : option Piece) : Prop :=
  match slot, slot' with
  | Some piece, Some piece' =>
      color piece' = color piece ∧
      rotateMatrix (shape piece) clockwise = Some (shape piece')
  | None, None => True
  | _, _ => False
  end.

(** [n] rotations of a matrix in the same direction. *)
Definition rotateTimes (n : nat) (clockwise : bool) (m : Matrix)
  : option Matrix :=
  Nat.iter n (λ acc, acc ≫= λ m', rotateMatrix m' clockwise) (Some m).


(** Draw [x] falls in slice [i] of [n], or under it by less than the
    rounding of the product can bridge: i - 2^-50 <= x * n < i + 1. *)
Definition nearSlice (x : Q) (i n : nat) : Prop :=
  (inject_Z (Z.of_nat i) - (1 # 2 ^ 50) <= x * inject_Z (Z.of_nat n))%Q ∧
  (x * inject_Z (Z.of_nat n) < inject_Z (Z.of_nat i + 1))%Q.

(** A draw at the end of a slice: 6004799503160661 / 2^53, the last
    double under 2/3.  Its products with 3 and with 6 are 2 - 2^-53 and
    4 - 2^-52, half way between two doubles, and round to 2 and 4. *)
Definition sliceEdgeDraw : Q := 6004799503160661 # 9007199254740992.

(** A shape as the pools hold them and rotation keeps them: rectangular,
    with a row and a column. *)
Definition goodShape (m : Matrix) : Prop :=
  rectangular m ∧ (0 < length m)%nat ∧ (0 < cols0 m)%nat.

(** The state of a session: an 8x8 grid and good shapes on the tray. *)
Definition wf_game (g : Game) : Prop :=
  wf_grid (grid g) ∧
  Forall (λ slot, ∀ piece, slot = Some piece → goodShape (shape piece))
         (activePieces g).

(** A value [Math.random()] can return: a double of [0,1). *)
Definition unitDouble (x : Q) : Prop :=
  isDouble x ∧ (0 <= x)%Q ∧ (x < 1)%Q.

(** The draws that index a list are doubles of [0,1), as [Math.random()]
    has them. *)
Definition drawsOk (d : Draws) : Prop :=
  unitDouble (drawShape d) ∧ unitDouble (drawColor d).

Definition opOk (op : Op) : Prop :=
  match op with
  | Drop _ _ _ d1 d2 d3 | Restart d1 d2 d3 =>
      drawsOk d1 ∧ drawsOk d2 ∧ drawsOk d3
  | Rotate _ => True
  end.

(** ** The grid on screen and the tray, for the statements on a session *)

(** [renderGrid] (lines 60-74): the cells appended to [gridEl], in order,
    each as its [dataset.row] and [dataset.col]. *)
Definition renderGrid : list (nat * nat) :=
  r ← seq 0 GRID_SIZE; c ← seq 0 GRID_SIZE; [(r, c)].

(** [(row + r) * CONFIG.GRID_SIZE + (col + c)], the index [placePiece],
    [showPreview] and [clearLines] look a cell up with. *)
Definition cellIndex (r c : Z) : Z := r * Z.of_nat GRID_SIZE + c.

(** [this.gridEl.children[index]]; [undefined] is [None]. *)
Definition childAt (index : Z) : option (nat * nat) :=
  if 0 <=? index then renderGrid !! Z.to_nat index else None.

(** The row and column [clearPreviews] (lines 369-379) computes for the
    cell at [idx]: [Math.floor(idx / GRID_SIZE)] and [idx % GRID_SIZE]. *)
Definition cellOfIndex (idx : nat) : nat * nat :=
  ((idx / GRID_SIZE)%nat, (idx mod GRID_SIZE)%nat).

(** [targetIndex] of [showFloatingText] (lines 500-515): column 4 of the
    middle cleared row or, without a row, row 4 of the middle cleared
    column.  An index read past the list is [undefined] and the cell
    looked up with it raises: [None]. *)
Definition floatingTextTarget (rows cols : list nat) : option nat :=
  if (0 <? length rows)%nat
  then r ← rows !! (length rows / 2)%nat; Some (r * GRID_SIZE + 4)%nat
  else c ← cols !! (length cols / 2)%nat; Some (4 * GRID_SIZE + c)%nat.

(** Grid cell (i,j) is the target of an occupied cell of the piece put at
    anchor (col,row). *)
Definition covered (piece : Piece) (col row : Z) (i j : nat) : Prop :=
  ∃ r c, occupied (shape piece) r c ∧
         Z.of_nat i = row + Z.of_nat r ∧ Z.of_nat j = col + Z.of_nat c.

(** No row and no column of the grid is full. *)
Definition noFullLine (gr : Grid) : Prop :=
  rowsToClear gr = [] ∧ colsToClear gr = [].

(** The first and last row and the first and last column of a shape hold
    an occupied cell: the matrix is the bounding box of the piece. *)
Definition tightb (m : Matrix) : bool :=
  existsb (λ c, bool_decide (at2 m 0 c = Some 1)) (seq 0 (cols0 m)) &&
  existsb (λ c, bool_decide (at2 m (length m - 1) c = Some 1))
          (seq 0 (cols0 m)) &&
  existsb (λ r, bool_decide (at2 m r 0 = Some 1)) (seq 0 (length m)) &&
  existsb (λ r, bool_decide (at2 m r (cols0 m - 1) = Some 1))
          (seq 0 (length m)).

(** What every tray of a session looks like: three slots, not all used,
    every piece a tight good shape. *)
Definition wf_tray (tray : list (option Piece)) : Prop :=
  length tray = 3%nat ∧
  (∃ i piece, tray !! i = Some (Some piece)) ∧
  Forall (λ slot, ∀ piece, slot = Some piece →
            goodShape (shape piece) ∧ tightb (shape piece) = true) tray.

(** Whenever no piece fits, the modal shows the game over with the
    current score. *)
Definition shownWhenStuck (g : Game) : Prop :=
  ¬ fitsSomewhere g → head (trace g) = Some (GameOverShown (score g)).

(** What holds in every state of a session. *)
Definition session (g : Game) : Prop :=
  wf_grid (grid g) ∧ wf_tray (activePieces g) ∧ noFullLine (grid g) ∧
  shownWhenStuck g.

(** A run of operations from a state. *)
Definition play (ops : list Op) (g : Game) : option Game :=
  forEach ops (λ op g, step g op) g.

(** Thirty-two drops of 1x1 pieces on the cells (r,c) with r + c even, the
    three slots taken in turn; the tray dealt by the thirtieth drop ends on
    the horizontal I tetromino. *)
Definition checkerOps : list Op :=
  (λ k, Drop (k mod 3) (Z.of_nat (2 * (k mod 4) + (k / 4) mod 2))
             (Z.of_nat (k / 4)) zeroDraws zeroDraws
             (if (k =? 29)%nat then mkDraws 0.5 0 0 else zeroDraws))
  <$> seq 0 32.

(** The state they lead to from [firstGame]: half of the cells are filled,
    no two empty cells touch, and the I tetromino is left on the tray. *)
Definition checkerGame : Game :=
  Eval vm_compute in default firstGame (play checkerOps firstGame).

(** [checkerGame] after a restart whose draws are all 0. *)
Definition restartedGame : Game :=
  Eval vm_compute in
    default firstGame (restartGame zeroDraws zeroDraws zeroDraws checkerGame).

(** A grid whose row 0 is full and whose other rows are empty. *)
Definition rowZeroGame : Game :=
  mkGame (replicate 8 (Some "#33FFF5"%string) :: replicate 7 (replicate 8 None))
         0 0 1 [Some (mkPiece [[1]] "#FF5733"); None; None] [].

(** Every colour on the grid and on the tray is one of the palette. *)
Definition paletteOnly (g : Game) : Prop :=
  (∀ r c co, at2 (grid g) r c = Some (Some co) → co ∈ COLORS) ∧
  (∀ i piece, activePieces g !! i = Some (Some piece) →
     color piece ∈ COLORS).

(** ** Reading a matrix *)

Lemma at2_Some {A} (m : list (list A)) r c v :
  at2 m r c = Some v ↔ ∃ row, m !! r = Some row ∧ row !! c = Some v.
Proof.
  unfold at2. destruct (m !! r) as [row|]; simpl.
  - split; [eauto | by intros (? & [= <-] & ?)].
  - split; [done | by intros (? & ? & ?)].
Qed.

Lemma rectangular_lookup {A} (m : list (list A)) r row :
  rectangular m → m !! r = Some row → length row = cols0 m.
Proof.
  intros Hrect Hr. unfold rectangular in Hrect.
  rewrite Forall_forall in Hrect. apply Hrect.
  by eapply list_elem_of_lookup_2.
Qed.

Lemma at2_bounds {A} (m : list (list A)) r c v :
  rectangular m → at2 m r c = Some v →
  (r < length m)%nat ∧ (c < cols0 m)%nat.
Proof.
  intros Hrect (row & Hr & Hc)%at2_Some. split.
  - by eapply lookup_lt_Some.
  - rewrite <- (rectangular_lookup m r row) by done.
    by eapply lookup_lt_Some.
Qed.

Lemma at2_is_Some {A} (m : list (list A)) r c :
  rectangular m → (r < length m)%nat → (c < cols0 m)%nat →
  is_Some (at2 m r c).
Proof.
  intros Hrect Hr Hc.
  destruct (lookup_lt_is_Some_2 m r Hr) as [row Hrow].
  assert (is_Some (row !! c)) as [v Hv].
  { apply lookup_lt_is_Some_2.
    by rewrite (rectangular_lookup m r row). }
  exists v. apply at2_Some. eauto.
Qed.

(** ** Placement validation *)

Lemma cellFits_true gr startCol startRow sh r c :
  cellFits gr startCol startRow sh r c = true ↔
  (occupied sh r c →
   0 ≤ startRow + Z.of_nat r < 8 ∧ 0 ≤ startCol + Z.of_nat c < 8 ∧
   at2 gr (Z.to_nat (startRow + Z.of_nat r))
          (Z.to_nat (startCol + Z.of_nat c)) = Some None).
Proof.
  unfold cellFits, occupied, GRID_SIZE. change (Z.of_nat 8) with 8.
  rewrite !Z.geb_leb.
  case_bool_decide as Hocc; [|by split].
  destruct (_ || _) eqn:Hout.
  - split; [done|]. intros H. destruct (H Hocc) as (? & ? & _).
    rewrite !orb_true_iff, !Z.ltb_lt, !Z.leb_le in Hout. lia.
  - rewrite !orb_false_iff, !Z.ltb_ge, !Z.leb_gt in Hout.
    case_bool_decide as Hcell.
    + split; [done|]. intros H. by destruct (H Hocc) as (_ & _ & ?).
    + split; [|done]. intros _ _.
      repeat split; try lia.
      by destruct (decide (at2 gr (Z.to_nat (startRow + Z.of_nat r))
                (Z.to_nat (startCol + Z.of_nat c)) = Some None)).
Qed.

(** The loops of [isValidPlacement] visit every occupied cell of a
    rectangular shape. *)
Lemma isValidPlacement_cells (gr : Grid) (startCol startRow : Z) (p : Piece) :
  rectangular (shape p) →
  isValidPlacement gr startCol startRow (Some p) = true ↔
  ∀ r c, occupied (shape p) r c →
    0 ≤ startRow + Z.of_nat r < 8 ∧ 0 ≤ startCol + Z.of_nat c < 8 ∧
    at2 gr (Z.to_nat (startRow + Z.of_nat r))
           (Z.to_nat (startCol + Z.of_nat c)) = Some None.
Proof.
  intros Hrect. simpl. rewrite forallb_forall. split.
  - intros Hall r c Hocc.
    destruct (at2_bounds _ _ _ _ Hrect Hocc) as [Hr Hc].
    assert (In r (seq 0 (length (shape p)))) as Hin by (apply in_seq; lia).
    specialize (Hall r Hin). rewrite forallb_forall in Hall.
    assert (In c (seq 0 (cols0 (shape p)))) as Hin' by (apply in_seq; lia).
    specialize (Hall c Hin'). by apply cellFits_true in Hall.
  - intros Hall r _. rewrite forallb_forall. intros c _.
    apply cellFits_true. auto.
Qed.

(** C1. On an 8x8 grid and a rectangular shape matrix,
    [isValidPlacement(startCol, startRow, piece)] is [true] exactly when
    every occupied cell (r,c) of the shape has its target
    (startRow+r, startCol+c) inside [0,8) on both axes and on an empty
    ([null]) grid cell; a [null] piece gives [false]. *)
Theorem isValidPlacement_spec (gr : Grid) (startCol startRow : Z) (p : Piece) :
  wf_grid gr → rectangular (shape p) →
  (isValidPlacement gr startCol startRow (Some p) = true ↔
   ∀ r c, occupied (shape p) r c →
     0 ≤ startRow + Z.of_nat r < 8 ∧ 0 ≤ startCol + Z.of_nat c < 8 ∧
     at2 gr (Z.to_nat (startRow + Z.of_nat r))
            (Z.to_nat (startCol + Z.of_nat c)) = Some None)
  ∧ isValidPlacement gr startCol startRow None = false.
Proof.
  intros _ Hrect. split; [|done]. by apply isValidPlacement_cells.
Qed.

Lemma isValidPlacement_spec_witness :
  isValidPlacement emptyGrid 6 7 (Some (mkPiece [[1; 1]] "#FF5733")) = true.
Proof.
  apply (isValidPlacement_spec emptyGrid 6 7 (mkPiece [[1; 1]] "#FF5733")).
  - split; [reflexivity | repeat constructor].
  - repeat constructor.
  - intros r c Hocc.
    destruct r as [|r]; [|by destruct r].
    destruct c as [|[|c]]; [by vm_compute | by vm_compute |].
    by destruct c.
Defined.

(** ** Progression: score, level, high score *)

(** Unfolds the record updates of the methods down to the fields. *)
Ltac fields :=
  unfold updateLevel, triggerGameOver, showFloatingText, emit, with_score,
    with_highScore, with_level, with_grid, with_pieces in *;
  cbn [score level highScore grid activePieces trace] in *.

Ltac updateScore_cases newScore g :=
  unfold updateScore; cbv zeta; fields;
  destruct (highScore g <? newScore) eqn:?; fields;
  destruct (level g * 500 <=? newScore) eqn:?; fields.

Lemma updateScore_score newScore g : score (updateScore newScore g) = newScore.
Proof. updateScore_cases newScore g; reflexivity. Qed.

Lemma updateScore_level newScore g :
  level (updateScore newScore g) =
  if level g * 500 <=? newScore then level g + 1 else level g.
Proof. updateScore_cases newScore g; reflexivity. Qed.

Lemma updateScore_highScore newScore g :
  highScore (updateScore newScore g) = Z.max (highScore g) newScore.
Proof. updateScore_cases newScore g; lia. Qed.

Lemma updateScore_grid newScore g : grid (updateScore newScore g) = grid g.
Proof. updateScore_cases newScore g; reflexivity. Qed.

Lemma updateScore_activePieces newScore g :
  activePieces (updateScore newScore g) = activePieces g.
Proof. updateScore_cases newScore g; reflexivity. Qed.

Lemma checkGameOver_cases g :
  checkGameOver g = g ∨ checkGameOver g = triggerGameOver g.
Proof. unfold checkGameOver. case_match; auto. Qed.

(** The check shows the modal and nothing else: the numbers, the grid and
    the tray stay. *)
Lemma checkGameOver_frame g :
  score (checkGameOver g) = score g ∧ level (checkGameOver g) = level g ∧
  highScore (checkGameOver g) = highScore g ∧
  grid (checkGameOver g) = grid g ∧
  activePieces (checkGameOver g) = activePieces g.
Proof. by destruct (checkGameOver_cases g) as [-> | ->]. Qed.

Lemma spawnPieces_frame d1 d2 d3 g g' :
  spawnPieces d1 d2 d3 g = Some g' →
  score g' = score g ∧ level g' = level g ∧ highScore g' = highScore g ∧
  grid g' = grid g.
Proof.
  unfold spawnPieces. intros H.
  destruct (generateRandomPiece g d1); [|done].
  destruct (generateRandomPiece g d2); [|done].
  destruct (generateRandomPiece g d3); [|done].
  simpl in H. injection H as <-.
  by destruct (checkGameOver_frame
    (with_pieces g [Some p; Some p0; Some p1])) as (-> & -> & -> & -> & _).
Qed.

Lemma Math_round_integer (a p : Z) :
  Math_round (inject_Z a * inject_Z p) = a * p.
Proof.
  unfold Math_round, Qfloor, Qmult, Qplus, inject_Z. simpl.
  rewrite Z.mul_1_r.
  replace (a * p * 2 + 1) with (1 + (a * p) * 2) by lia.
  rewrite Z.div_add by lia. reflexivity.
Qed.

(** The score table of [clearLines] in closed form. *)
Lemma linePoints_table lineCount :
  linePoints lineCount =
  if lineCount =? 2 then 300
  else if lineCount =? 3 then 600
  else if 4 <=? lineCount then 300 * lineCount
  else 100 * lineCount.
Proof.
  unfold linePoints, multiplier, pxPerLine. rewrite Z.geb_leb.
  destruct (lineCount =? 2) eqn:H2.
  { apply Z.eqb_eq in H2 as ->. reflexivity. }
  destruct (lineCount =? 3) eqn:H3.
  { apply Z.eqb_eq in H3 as ->. reflexivity. }
  destruct (4 <=? lineCount).
  - change 3%Q with (inject_Z 3). rewrite Math_round_integer. lia.
  - change 1%Q with (inject_Z 1). rewrite Math_round_integer. lia.
Qed.

Lemma linePoints_nonneg lineCount : 0 ≤ lineCount → 0 ≤ linePoints lineCount.
Proof. intros H. rewrite linePoints_table. repeat case_match; lia. Qed.

(** What [clearLines] does to the numbers: one call
    [updateScore(this.score + points)]. *)
Lemma clearLines_numbers rows cols g g' :
  clearLines rows cols g = Some g' →
  let points := linePoints (Z.of_nat (length rows + length cols)) in
  score g' = score g + points ∧
  level g' = level (updateScore (score g + points) g) ∧
  highScore g' = Z.max (highScore g) (score g + points) ∧
  activePieces g' = activePieces g.
Proof.
  unfold clearLines. intros H.
  destruct (clearCells _ _) as [gr|]; [|done]. simpl in H.
  injection H as <-. cbv zeta.
  destruct (0 <? _); fields;
    by rewrite updateScore_score, updateScore_highScore, !updateScore_level,
      updateScore_activePieces.
Qed.

(** After [checkForLines] the numbers are untouched or went through that
    one call, with a non-negative award. *)
Lemma checkForLines_numbers g g' :
  checkForLines g = Some g' →
  activePieces g' = activePieces g ∧ scored g g'.
Proof.
  unfold checkForLines, scored. case_match.
  - intros (Hs & Hl & Hh & Hp)%clearLines_numbers. split; [done|].
    right. eexists. split; [|done].
    apply linePoints_nonneg. lia.
  - intros [= <-]. auto.
Qed.

Lemma placePiece_numbers col row piece g g' :
  placePiece col row piece g = Some g' →
  activePieces g' = activePieces g ∧ scored g g'.
Proof.
  unfold placePiece. intros H.
  destruct (fillCells _ _ _ _) as [gr|]; [|done]. simpl in H.
  apply checkForLines_numbers in H. unfold scored in *.
  setoid_rewrite updateScore_level. setoid_rewrite updateScore_level in H.
  exact H.
Qed.

Lemma scored_refl g : scored g g.
Proof. by left. Qed.

(** Later steps that keep the numbers keep the award. *)
Lemma scored_frame g g1 g2 :
  scored g g1 →
  score g2 = score g1 → level g2 = level g1 → highScore g2 = highScore g1 →
  scored g g2.
Proof. unfold scored. intros H -> -> ->. exact H. Qed.

Lemma onUp_numbers index col row d1 d2 d3 g g' :
  onUp index col row d1 d2 d3 g = Some g' → scored g g'.
Proof.
  unfold onUp, tryPlacePiece. intros H.
  destruct (activePieces g !! index) as [[piece|]|];
    [|injection H as <-; apply scored_refl..].
  destruct (isValidPlacement _ _ _ _); simpl in H;
    [|injection H as <-; apply scored_refl].
  destruct (placePiece col row piece g) as [g1|] eqn:Hplace; [|done].
  apply placePiece_numbers in Hplace as [_ Hscored]. simpl in H.
  match type of H with
  | (if ?b then _ else _) = _ => destruct b
  end.
  - apply spawnPieces_frame in H as (Hs & Hl & Hh & _).
    by eapply scored_frame.
  - injection H as <-.
    destruct (checkGameOver_frame
      (with_pieces g1 (<[index:=None]> (activePieces g1))))
      as (Hs & Hl & Hh & _).
    by eapply scored_frame.
Qed.

Lemma rotateAllPieces_frame clockwise g g' :
  rotateAllPieces clockwise g = Some g' →
  score g' = score g ∧ level g' = level g ∧ highScore g' = highScore g ∧
  grid g' = grid g.
Proof.
  unfold rotateAllPieces. intros H.
  destruct (mapM _ _) as [pieces|]; [|done]. simpl in H.
  injection H as <-.
  by destruct (checkGameOver_frame (with_pieces g pieces))
    as (-> & -> & -> & -> & _).
Qed.

Lemma restartGame_numbers d1 d2 d3 g g' :
  restartGame d1 d2 d3 g = Some g' →
  score g' = 0 ∧ level g' = 1 ∧ highScore g' = Z.max (highScore g) 0.
Proof.
  unfold restartGame. intros (-> & -> & -> & _)%spawnPieces_frame.
  fields. by rewrite updateScore_score, updateScore_highScore.
Qed.

Lemma newGame_numbers stored d1 d2 d3 g :
  newGame stored d1 d2 d3 = Some g → score g = 0 ∧ level g = 1.
Proof.
  unfold newGame. intros (-> & -> & _ & _)%spawnPieces_frame.
  fields. by rewrite updateScore_score.
Qed.


Lemma scored_monotone g g' :
  scored g g' →
  score g ≤ score g' ∧ level g ≤ level g' ∧ highScore g ≤ highScore g'.
Proof.
  unfold scored.
  intros [(-> & -> & ->) | (points & Hpos & -> & -> & ->)]; [lia|].
  rewrite updateScore_level. case_match; lia.
Qed.





(** C2, as the code has it.  One call of [updateScore] makes the threshold
    check once, against the level before the call: the level goes up by one
    if the new score is at least [level * 500] and stays otherwise.  So
    [score < level * 500] holds after the call exactly when the new score is
    below [(level + 1) * 500]. *)
Theorem updateScore_checks_once (g : Game) (newScore : Z) :
  level (updateScore newScore g) =
    (if level g * 500 <=? newScore then level g + 1 else level g) ∧
  (score (updateScore newScore g) < level (updateScore newScore g) * 500 ↔
   newScore < (level g + 1) * 500).
Proof.
  rewrite updateScore_score, updateScore_level. split; [done|].
  destruct (level g * 500 <=? newScore) eqn:Hreq.
  - done.
  - apply Z.leb_gt in Hreq. lia.
Qed.

(** C2 fails as stated: with score 0 and level 1, the 2x2 piece dropped at
    the corner of [fourLinesGame] completes rows 0, 1 and columns 0, 1;
    the award of 1200 crosses the thresholds 500 and 1000, the one call
    [updateScore(1200)] leaves level 2, and 1200 < 2 * 500 is false. *)
Lemma updateScore_loops_counterexample :
  placePiece 0 0 squarePiece fourLinesGame = Some fourLinesCleared ∧
  score (updateScore 1200 fourLinesGame) = 1200 ∧
  level (updateScore 1200 fourLinesGame) = 2 ∧
  ¬ (score (updateScore 1200 fourLinesGame)
     < level (updateScore 1200 fourLinesGame) * 500).
Proof. split; [by vm_compute|]. split; [done|]. split; [done|]. by vm_compute. Qed.

Lemma step_highScore g op g' :
  step g op = Some g' → highScore g ≤ highScore g'.
Proof.
  destruct op as [index col row d1 d2 d3 | clockwise | d1 d2 d3]; simpl.
  - intros H%onUp_numbers%scored_monotone. tauto.
  - intros (_ & _ & -> & _)%rotateAllPieces_frame. lia.
  - intros (_ & _ & ->)%restartGame_numbers. lia.
Qed.

Lemma reachable_highScore g : reachable g → score g ≤ highScore g.
Proof.
  induction 1 as [stored d1 d2 d3 g Hnew | g op g' _ IH Hstep].
  - unfold newGame in Hnew.
    apply spawnPieces_frame in Hnew as (-> & _ & -> & _). fields.
    rewrite updateScore_score, updateScore_highScore. lia.
  - destruct op as [index col row d1 d2 d3 | clockwise | d1 d2 d3];
      simpl in Hstep.
    + apply onUp_numbers in Hstep
        as [(-> & _ & ->) | (points & _ & -> & _ & ->)]; lia.
    + by apply rotateAllPieces_frame in Hstep as (-> & _ & -> & _).
    + apply restartGame_numbers in Hstep as (-> & _ & ->). lia.
Qed.

(** C10. After a call [updateScore(newScore)] the high score is the maximum
    of the previous high score and the new score, hence at least the score,
    and a new high score is written to the storage; no operation of the
    engine (drop, rotation, restart) lowers it; and in every state of a
    session the high score is at least the score. *)
Theorem highScore_max_monotone :
  (∀ g newScore,
     highScore (updateScore newScore g) = Z.max (highScore g) newScore ∧
     score (updateScore newScore g) ≤ highScore (updateScore newScore g) ∧
     (highScore g < newScore →
      HighScoreStored newScore ∈ trace (updateScore newScore g))) ∧
  (∀ g op g', step g op = Some g' → highScore g ≤ highScore g') ∧
  (∀ g, reachable g → score g ≤ highScore g).
Proof.
  split; [|split].
  - intros g newScore.
    rewrite updateScore_score, updateScore_highScore.
    split; [done|]. split; [lia|].
    intros Hlt%Z.ltb_lt. unfold updateScore. cbv zeta. fields.
    rewrite Hlt. fields. case_match; fields.
    + apply list_elem_of_further, list_elem_of_here.
    + apply list_elem_of_here.
  - apply step_highScore.
  - apply reachable_highScore.
Qed.

Lemma highScore_max_monotone_witness :
  highScore fourLinesGame ≤ highScore fourLinesDropped.
Proof.
  apply (proj1 (proj2 highScore_max_monotone) fourLinesGame
    (Drop 0 0 0 zeroDraws zeroDraws zeroDraws)).
  by vm_compute.
Defined.

(** ** Loops and writes *)

Lemma forEach_failed {A S} (xs : list A) (body : A → S → option S) :
  foldl (λ acc x, acc ≫= body x) None xs = None.
Proof. by induction xs. Qed.

Lemma forEach_cons {A S} x (xs : list A) (body : A → S → option S) s :
  forEach (x :: xs) body s = body x s ≫= forEach xs body.
Proof.
  unfold forEach. simpl. destruct (body x s); simpl; [done|].
  apply forEach_failed.
Qed.

Lemma for__S {S} n (body : nat → S → option S) s :
  for_ (Datatypes.S n) body s = for_ n body s ≫= body n.
Proof. unfold for_, forEach. by rewrite seq_S, foldl_app. Qed.

(** A loop whose body keeps an invariant indexed by the counter runs to
    its end and establishes the invariant at the bound. *)
Lemma for__invariant {S} (P : nat → S → Prop) n
    (body : nat → S → option S) s :
  P 0%nat s →
  (∀ i t, (i < n)%nat → P i t →
     ∃ t', body i t = Some t' ∧ P (Datatypes.S i) t') →
  ∃ s', for_ n body s = Some s' ∧ P n s'.
Proof.
  intros H0 Hstep. induction n as [|n IH].
  - by exists s.
  - destruct IH as (t & Hrun & Ht).
    { intros i t' Hi. apply Hstep. lia. }
    destruct (Hstep n t) as (t' & Hbody & Ht'); [lia | done |].
    exists t'. rewrite for__S, Hrun. done.
Qed.

Lemma write2_Some {A} (m : list (list A)) r c v m' :
  write2 m r c v = Some m' ↔
  ∃ row, m !! r = Some row ∧ (c < length row)%nat ∧
         m' = <[r := <[c := v]> row]> m.
Proof.
  unfold write2. destruct (m !! r) as [row|]; simpl.
  - case_decide.
    + split; [intros [= <-]; eauto | by intros (? & [= <-] & _ & ->)].
    + split; [done | intros (? & [= <-] & ? & _); lia].
  - split; [done | by intros (? & ? & _)].
Qed.

(** A write changes the cell written and no other. *)
Lemma write2_at2 {A} (m : list (list A)) r c v m' r' c' :
  write2 m r c v = Some m' →
  at2 m' r' c' = if decide (r' = r ∧ c' = c) then Some v else at2 m r' c'.
Proof.
  intros (row & Hrow & Hc & ->)%write2_Some. unfold at2.
  destruct (decide (r' = r)) as [->|Hr].
  - rewrite list_lookup_insert_eq by by eapply lookup_lt_Some.
    rewrite Hrow. simpl.
    destruct (decide (c' = c)) as [->|Hc'].
    + rewrite list_lookup_insert_eq by done. by rewrite decide_True.
    + rewrite list_lookup_insert_ne by done.
      rewrite decide_False by tauto. done.
  - rewrite list_lookup_insert_ne by done.
    rewrite decide_False by tauto. done.
Qed.

(** A write keeps the number of rows and the length of each. *)
Lemma write2_dims {A} (m : list (list A)) r c v m' :
  write2 m r c v = Some m' → length <$> m' = length <$> m.
Proof.
  intros (row & Hrow & Hc & ->)%write2_Some.
  rewrite list_fmap_insert, length_insert.
  apply list_insert_id. by rewrite list_lookup_fmap, Hrow.
Qed.

Lemma wf_grid_dims (gr : Grid) :
  wf_grid gr ↔ length <$> gr = replicate GRID_SIZE GRID_SIZE.
Proof.
  unfold wf_grid. split.
  - intros [Hlen Hrows].
    assert (length <$> gr = replicate (length gr) GRID_SIZE) as Hdims.
    { clear Hlen. induction Hrows as [|row gr' Hrow _ IH]; [done|].
      csimpl. by rewrite Hrow, IH. }
    by rewrite Hdims, Hlen.
  - intros Hdims. split.
    + by rewrite <- (length_fmap length), Hdims, length_replicate.
    + apply Forall_forall. intros row (i & Hi)%list_elem_of_lookup_1.
      assert ((length <$> gr) !! i = Some (length row)) as Hrow
        by by rewrite list_lookup_fmap, Hi.
      rewrite Hdims in Hrow. by apply lookup_replicate in Hrow as [-> _].
Qed.

Lemma write2_wf (gr gr' : Grid) r c v :
  write2 gr r c v = Some gr' → wf_grid gr → wf_grid gr'.
Proof. intros H%write2_dims. rewrite !wf_grid_dims. by rewrite H. Qed.

(** On an 8x8 grid exactly the reads inside the grid find a cell. *)
Lemma wf_grid_at2 (gr : Grid) r c :
  wf_grid gr → (r < GRID_SIZE)%nat → (c < GRID_SIZE)%nat →
  ∃ cell, at2 gr r c = Some cell.
Proof.
  intros [Hlen Hrows] Hr Hc. rewrite Forall_forall in Hrows.
  destruct (lookup_lt_is_Some_2 gr r) as [row Hrow]; [lia|].
  destruct (lookup_lt_is_Some_2 row c) as [cell Hcell].
  { rewrite (Hrows row); [done|]. by eapply list_elem_of_lookup_2. }
  exists cell. apply at2_Some. eauto.
Qed.

Lemma wf_grid_write2 (gr : Grid) r c v :
  wf_grid gr → (r < GRID_SIZE)%nat → (c < GRID_SIZE)%nat →
  ∃ gr', write2 gr r c v = Some gr'.
Proof.
  intros [Hlen Hrows] Hr Hc. rewrite Forall_forall in Hrows.
  destruct (lookup_lt_is_Some_2 gr r) as [row Hrow]; [lia|].
  eexists. apply write2_Some. exists row. split; [done|]. split; [|done].
  rewrite (Hrows row); [done|]. by eapply list_elem_of_lookup_2.
Qed.

(** ** Full lines and the set of cells to clear *)

Lemma wf_grid_filled (gr : Grid) r c :
  wf_grid gr → (r < GRID_SIZE)%nat → (c < GRID_SIZE)%nat →
  filled gr r c ↔ at2 gr r c ≠ Some None.
Proof.
  intros Hwf Hr Hc. destruct (wf_grid_at2 gr r c) as [cell Hcell]; [done..|].
  unfold filled. rewrite Hcell. destruct cell as [co|].
  - split; [done | eauto].
  - split; [by intros [? ?] | done].
Qed.

Lemma rowFull_spec (gr : Grid) r :
  wf_grid gr → (r < GRID_SIZE)%nat →
  rowFull gr r = true ↔ ∀ c, (c < GRID_SIZE)%nat → filled gr r c.
Proof.
  intros Hwf Hr. pose proof Hwf as [Hlen Hrows].
  rewrite Forall_forall in Hrows.
  destruct (lookup_lt_is_Some_2 gr r) as [row Hrow]; [lia|].
  assert (length row = GRID_SIZE) as Hrowlen
    by (apply Hrows; by eapply list_elem_of_lookup_2).
  unfold rowFull. rewrite Hrow, forallb_forall. split.
  - intros Hall c Hc. apply wf_grid_filled; [done..|].
    destruct (lookup_lt_is_Some_2 row c) as [cell Hcell]; [lia|].
    assert (at2 gr r c = Some cell) as -> by (apply at2_Some; eauto).
    specialize (Hall cell). rewrite bool_decide_eq_true in Hall.
    intros [= ->]. apply Hall; [|done].
    apply list_elem_of_In. by eapply list_elem_of_lookup_2.
  - intros Hall cell (c & Hcell)%list_elem_of_In%list_elem_of_lookup_1.
    apply bool_decide_eq_true. intros ->.
    assert (c < GRID_SIZE)%nat as Hc
      by (rewrite <- Hrowlen; by eapply lookup_lt_Some).
    destruct (Hall c Hc) as [co Hco].
    apply at2_Some in Hco as (row' & Hrow' & Hco). congruence.
Qed.

Lemma colFull_spec (gr : Grid) c :
  wf_grid gr → (c < GRID_SIZE)%nat →
  colFull gr c = true ↔ ∀ r, (r < GRID_SIZE)%nat → filled gr r c.
Proof.
  intros Hwf Hc. unfold colFull. rewrite forallb_forall. split.
  - intros Hall r Hr. apply wf_grid_filled; [done..|].
    specialize (Hall r). rewrite negb_true_iff, bool_decide_eq_false in Hall.
    apply Hall, in_seq. lia.
  - intros Hall r [_ Hr]%in_seq.
    rewrite negb_true_iff, bool_decide_eq_false.
    apply wf_grid_filled; [done | lia | done |]. apply Hall. lia.
Qed.

Lemma rowsToClear_elem (gr : Grid) r :
  r ∈ rowsToClear gr ↔ (r < GRID_SIZE)%nat ∧ rowFull gr r = true.
Proof.
  unfold rowsToClear. rewrite list_elem_of_In, filter_In, in_seq.
  intuition lia.
Qed.

Lemma colsToClear_elem (gr : Grid) c :
  c ∈ colsToClear gr ↔ (c < GRID_SIZE)%nat ∧ colFull gr c = true.
Proof.
  unfold colsToClear. rewrite list_elem_of_In, filter_In, in_seq.
  intuition lia.
Qed.

Lemma setAdd_elem s key k : k ∈ setAdd s key ↔ k ∈ s ∨ k = key.
Proof.
  unfold setAdd. case_decide as Hin.
  - split; [auto | by intros [? | ->]].
  - rewrite elem_of_app, list_elem_of_singleton. done.
Qed.

Lemma setAdd_NoDup s key : NoDup s → NoDup (setAdd s key).
Proof.
  unfold setAdd. case_decide as Hin; [done|].
  intros Hs. apply NoDup_app. split; [done|]. split.
  - intros k Hk ->%list_elem_of_singleton. done.
  - apply NoDup_singleton.
Qed.

Section folds.
Context {K X : Type} (G : list K → X → list K) (Q : X → K → Prop).
Hypothesis G_elem : ∀ s x k, k ∈ G s x ↔ k ∈ s ∨ Q x k.
Hypothesis G_NoDup : ∀ s x, NoDup s → NoDup (G s x).

Lemma foldl_elem xs s k :
  k ∈ foldl G s xs ↔ k ∈ s ∨ ∃ x, x ∈ xs ∧ Q x k.
Proof using G_elem.
  revert s. induction xs as [|x xs IH]; intros s; simpl.
  - split; [auto | intros [? | (x & Hx & _)]; [done|]].
    by apply not_elem_of_nil in Hx.
  - rewrite IH, G_elem. split.
    + intros [[? | ?] | (y & Hy & ?)]; [auto | right.. ].
      * exists x. split; [apply list_elem_of_here | done].
      * exists y. split; [by apply list_elem_of_further | done].
    + intros [? | (y & Hy & ?)]; [auto|].
      apply elem_of_cons in Hy as [-> | Hy]; [auto|].
      right. eauto.
Qed.

Lemma foldl_NoDup xs s : NoDup s → NoDup (foldl G s xs).
Proof using G_NoDup.
  revert s. induction xs as [|x xs IH]; intros s Hs; simpl; [done|].
  by apply IH, G_NoDup.
Qed.
End folds.

Lemma elem_of_seq_0 x n : x ∈ seq 0 n ↔ (x < n)%nat.
Proof. rewrite elem_of_seq. lia. Qed.

(** The set holds the cells of the rows and of the columns given, inside
    the grid, each once. *)
Lemma cellsToClear_elem rows cols r c :
  (r, c) ∈ cellsToClear rows cols ↔
  (r ∈ rows ∧ (c < GRID_SIZE)%nat) ∨ (c ∈ cols ∧ (r < GRID_SIZE)%nat).
Proof.
  unfold cellsToClear.
  rewrite (foldl_elem _ (λ c' k, ∃ r', (r' < GRID_SIZE)%nat ∧ k = (r', c'))).
  2:{ intros s c' k.
      rewrite (foldl_elem _ (λ r' k, k = (r', c'))).
      - by setoid_rewrite elem_of_seq_0.
      - intros. apply setAdd_elem. }
  rewrite (foldl_elem _ (λ r' k, ∃ c', (c' < GRID_SIZE)%nat ∧ k = (r', c'))).
  2:{ intros s r' k.
      rewrite (foldl_elem _ (λ c' k, k = (r', c'))).
      - by setoid_rewrite elem_of_seq_0.
      - intros. apply setAdd_elem. }
  split.
  - intros [[Hnil | (r' & Hr' & c' & Hc' & [= -> ->])]
           | (c' & Hc' & r' & Hr' & [= -> ->])]; [|auto..].
    by apply not_elem_of_nil in Hnil.
  - intros [[Hr Hc] | [Hc Hr]]; [left; right | right]; eauto 6.
Qed.

Lemma cellsToClear_NoDup rows cols : NoDup (cellsToClear rows cols).
Proof.
  unfold cellsToClear.
  apply foldl_NoDup.
  { intros s c Hs. apply foldl_NoDup; [|done].
    intros. by apply setAdd_NoDup. }
  apply foldl_NoDup; [|apply NoDup_nil_2].
  intros s r Hs. apply foldl_NoDup; [|done].
  intros. by apply setAdd_NoDup.
Qed.

(** ** Clearing and filling cells *)

Lemma clearCells_spec cells (gr : Grid) :
  wf_grid gr →
  (∀ r c, (r, c) ∈ cells → (r < GRID_SIZE)%nat ∧ (c < GRID_SIZE)%nat) →
  ∃ gr', clearCells cells gr = Some gr' ∧ wf_grid gr' ∧
    ∀ r c, at2 gr' r c =
           if decide ((r, c) ∈ cells) then Some None else at2 gr r c.
Proof.
  revert gr. induction cells as [|[r0 c0] cells IH]; intros gr Hwf Hrange.
  - exists gr. split; [done|]. split; [done|]. intros r c.
    rewrite decide_False; [done | apply not_elem_of_nil].
  - destruct (Hrange r0 c0) as [Hr0 Hc0]; [apply list_elem_of_here|].
    destruct (wf_grid_write2 gr r0 c0 None Hwf Hr0 Hc0) as [gr1 Hwrite].
    destruct (IH gr1) as (gr' & Hrun & Hwf' & Hcells).
    { by eapply write2_wf. }
    { intros r c Hin. apply Hrange. by apply list_elem_of_further. }
    exists gr'. unfold clearCells in *. rewrite forEach_cons. simpl.
    rewrite Hwrite. simpl. split; [done|]. split; [done|].
    intros r c. rewrite Hcells, (write2_at2 _ _ _ _ _ _ _ Hwrite).
    destruct (decide ((r, c) ∈ cells)) as [Hin|Hout].
    + rewrite decide_True; [done | by apply list_elem_of_further].
    + destruct (decide (r = r0 ∧ c = c0)) as [[-> ->]|Hne].
      * rewrite decide_True; [done | apply list_elem_of_here].
      * rewrite decide_False; [done|].
        intros [[= -> ->] | ?]%elem_of_cons; tauto.
Qed.

Lemma clearLines_grid rows cols g g' :
  clearLines rows cols g = Some g' →
  clearCells (cellsToClear rows cols) (grid g) = Some (grid g').
Proof.
  unfold clearLines. intros H.
  destruct (clearCells _ _) as [gr|]; [|done]. simpl in H.
  injection H as <-. f_equal.
  destruct (0 <? _); fields; by rewrite updateScore_grid.
Qed.

Lemma clearLines_runs rows cols g gr :
  clearCells (cellsToClear rows cols) (grid g) = Some gr →
  ∃ g', clearLines rows cols g = Some g'.
Proof. unfold clearLines. intros ->. simpl. eauto. Qed.

Lemma length_zero_ltb {A} (l : list A) : (0 <? length l)%nat = false → l = [].
Proof. intros H%Nat.ltb_ge. destruct l; [done | simpl in H; lia]. Qed.

(** [checkForLines] on an 8x8 grid runs to its end; its grid is the old
    one with the cells of the set cleared; without a full line the state is
    the old one. *)
Lemma checkForLines_grid g :
  wf_grid (grid g) →
  ∃ g', checkForLines g = Some g' ∧
    clearCells (cellsToClear (rowsToClear (grid g)) (colsToClear (grid g)))
               (grid g) = Some (grid g') ∧
    (rowsToClear (grid g) = [] → colsToClear (grid g) = [] → g' = g).
Proof.
  intros Hwf. unfold checkForLines.
  destruct ((0 <? length (rowsToClear (grid g)))%nat ||
            (0 <? length (colsToClear (grid g)))%nat) eqn:Hany.
  - destruct (clearCells_spec
      (cellsToClear (rowsToClear (grid g)) (colsToClear (grid g))) (grid g))
      as (gr & Hrun & _ & _); [done | |].
    { intros r c [[Hr Hc] | [Hc Hr]]%cellsToClear_elem; split; try done.
      - by apply rowsToClear_elem in Hr as [? _].
      - by apply colsToClear_elem in Hc as [? _]. }
    destruct (clearLines_runs _ _ g gr Hrun) as [g' Hg'].
    exists g'. split; [done|]. split; [by apply clearLines_grid|].
    intros Hrows Hcols. by rewrite Hrows, Hcols in Hany.
  - apply orb_false_iff in Hany as [Hrows%length_zero_ltb Hcols%length_zero_ltb].
    exists g. by rewrite Hrows, Hcols.
Qed.

Lemma forEach_preserves {A S} (P : S → Prop) (xs : list A)
    (body : A → S → option S) s s' :
  (∀ x t t', body x t = Some t' → P t → P t') →
  forEach xs body s = Some s' → P s → P s'.
Proof.
  intros Hbody. revert s. induction xs as [|x xs IH]; intros s.
  - by intros [= <-].
  - rewrite forEach_cons. destruct (body x s) as [t|] eqn:Hx; [|done].
    simpl. intros Hrun Hs. eapply IH; [done|]. by eapply Hbody.
Qed.

Lemma for__preserves {S} (P : S → Prop) n (body : nat → S → option S) s s' :
  (∀ i t t', body i t = Some t' → P t → P t') →
  for_ n body s = Some s' → P s → P s'.
Proof. apply forEach_preserves. Qed.

Lemma writeZ_Some {A} (m : list (list A)) r c v m' :
  writeZ m r c v = Some m' ↔
  0 ≤ r ∧ 0 ≤ c ∧ write2 m (Z.to_nat r) (Z.to_nat c) v = Some m'.
Proof.
  unfold writeZ. destruct (0 <=? r) eqn:Hr; destruct (0 <=? c) eqn:Hc; simpl;
    rewrite ?Z.leb_le, ?Z.leb_gt in *; split; try done; try tauto;
    intros (? & ? & _); lia.
Qed.

Lemma fillCells_wf col row piece (gr gr' : Grid) :
  fillCells col row piece gr = Some gr' → wf_grid gr → wf_grid gr'.
Proof.
  unfold fillCells. apply for__preserves. intros r t t'.
  apply for__preserves. intros c u u'. case_bool_decide.
  - intros (_ & _ & Hwrite)%writeZ_Some. by eapply write2_wf.
  - by intros [= <-].
Qed.

(** A placement that validated writes inside the grid: the loops of
    [placePiece] run to their end. *)
Lemma fillCells_valid col row piece (gr : Grid) :
  wf_grid gr → rectangular (shape piece) →
  isValidPlacement gr col row (Some piece) = true →
  ∃ gr', fillCells col row piece gr = Some gr' ∧ wf_grid gr'.
Proof.
  intros Hwf Hrect Hvalid.
  pose proof (proj1 (isValidPlacement_cells gr col row piece Hrect) Hvalid)
    as Hcells.
  unfold fillCells.
  apply (for__invariant (λ _ t, wf_grid t)); [done|].
  intros r t Hr Ht.
  apply (for__invariant (λ _ u, wf_grid u)); [done|].
  intros c u Hc Hu. case_bool_decide as Hocc; [|eauto].
  destruct (Hcells r c Hocc) as (Hrow & Hcol & _).
  destruct (wf_grid_write2 u (Z.to_nat (row + Z.of_nat r))
    (Z.to_nat (col + Z.of_nat c)) (Some (color piece)) Hu)
    as [u' Hwrite]; [unfold GRID_SIZE; lia..|].
  exists u'. split; [|by eapply write2_wf].
  apply writeZ_Some. split; [lia|]. split; [lia | done].
Qed.

(** ** A placement and its line clear *)

(** A validated placement runs [placePiece] to its end: the cells are
    filled, then [checkForLines] works on the filled grid. *)
Lemma placePiece_runs g col row piece :
  wf_grid (grid g) → rectangular (shape piece) →
  isValidPlacement (grid g) col row (Some piece) = true →
  ∃ placed g',
    fillCells col row piece (grid g) = Some placed ∧ wf_grid placed ∧
    placePiece col row piece g = Some g' ∧
    checkForLines (with_grid g placed) = Some g'.
Proof.
  intros Hwf Hrect Hvalid.
  destruct (fillCells_valid col row piece (grid g) Hwf Hrect Hvalid)
    as (placed & Hfill & Hplaced).
  destruct (checkForLines_grid (with_grid g placed) Hplaced)
    as (g' & Hlines & _).
  exists placed, g'. unfold placePiece. rewrite Hfill. done.
Qed.

Lemma multiplier_table lineCount :
  0 < lineCount → multiplier lineCount = comboMultiplier lineCount.
Proof.
  intros Hpos. unfold multiplier, comboMultiplier. rewrite Z.geb_leb.
  destruct (lineCount =? 1) eqn:H1.
  { apply Z.eqb_eq in H1 as ->. reflexivity. }
  destruct (lineCount =? 2) eqn:H2.
  { apply Z.eqb_eq in H2 as ->. reflexivity. }
  destruct (lineCount =? 3) eqn:H3.
  { apply Z.eqb_eq in H3 as ->. reflexivity. }
  apply Z.eqb_neq in H1, H2, H3.
  destruct (4 <=? lineCount) eqn:H4; [done|].
  apply Z.leb_gt in H4. lia.
Qed.

Lemma clearLines_trace rows cols g g' :
  clearLines rows cols g = Some g' →
  (0 < length rows + length cols)%nat →
  head (trace g') =
  Some (FloatingText (linePoints (Z.of_nat (length rows + length cols)))).
Proof.
  unfold clearLines. intros H Hpos.
  destruct (clearCells _ _) as [gr|]; [|done]. simpl in H.
  injection H as <-.
  destruct (0 <? _) eqn:Hlt; [done|]. apply Z.ltb_ge in Hlt. lia.
Qed.

(** C4. A validated placement whose filled grid has [lineCount] full rows
    and columns, [lineCount > 0], adds
    [round(lineCount * 100 * multiplier)] to the score, the multiplier
    being 1, 1.5, 2, 3 for 1, 2, 3 and 4 or more lines, and shows that
    amount as floating text; two rows and one column give 600; with
    [lineCount = 0] the state is the one the placement left: no call of
    [updateScore], no text. *)
Theorem clearLines_points (g : Game) (col row : Z) (piece : Piece) :
  wf_grid (grid g) → rectangular (shape piece) →
  isValidPlacement (grid g) col row (Some piece) = true →
  ∃ placed g',
    fillCells col row piece (grid g) = Some placed ∧
    placePiece col row piece g = Some g' ∧
    (∀ lineCount,
       lineCount = Z.of_nat (length (rowsToClear placed) +
                             length (colsToClear placed)) →
       0 < lineCount →
       score g' = score g +
         Math_round (inject_Z (lineCount * 100) * comboMultiplier lineCount) ∧
       head (trace g') = Some (FloatingText (score g' - score g))) ∧
    (length (rowsToClear placed) = 2%nat →
     length (colsToClear placed) = 1%nat →
     score g' = score g + 600) ∧
    (rowsToClear placed = [] → colsToClear placed = [] →
     g' = with_grid g placed).
Proof.
  intros Hwf Hrect Hvalid.
  destruct (placePiece_runs g col row piece Hwf Hrect Hvalid)
    as (placed & g' & Hfill & Hplaced & Hplace & Hlines).
  exists placed, g'. split; [done|]. split; [done|].
  assert (∀ lineCount,
    lineCount = Z.of_nat (length (rowsToClear placed) +
                          length (colsToClear placed)) →
    0 < lineCount →
    score g' = score g + linePoints lineCount ∧
    head (trace g') = Some (FloatingText (linePoints lineCount))) as Hpoints.
  { intros lineCount -> Hpos. unfold checkForLines in Hlines. simpl in Hlines.
    destruct (_ || _) eqn:Hany.
    - split.
      + by apply clearLines_numbers in Hlines as (-> & _).
      + apply clearLines_trace in Hlines; [done | lia].
    - apply orb_false_iff in Hany
        as [Hrows%length_zero_ltb Hcols%length_zero_ltb].
      rewrite Hrows, Hcols in Hpos. simpl in Hpos. lia. }
  split; [|split].
  - intros lineCount Hcount Hpos.
    destruct (Hpoints lineCount Hcount Hpos) as [Hscore Htrace].
    rewrite Htrace, Hscore. unfold linePoints, pxPerLine.
    rewrite multiplier_table by done. split; [done|].
    do 2 f_equal. lia.
  - intros Hrows Hcols.
    destruct (Hpoints 3) as [-> _]; [by rewrite Hrows, Hcols | done | done].
  - intros Hrows Hcols.
    destruct (checkForLines_grid (with_grid g placed) Hplaced)
      as (g'' & Hlines' & _ & Hsame).
    rewrite Hlines in Hlines'. injection Hlines' as <-. by apply Hsame.
Qed.

Lemma clearLines_points_witness :
  ∃ g', placePiece 0 0 squarePiece fourLinesGame = Some g' ∧
        score g' = score fourLinesGame + 1200.
Proof.
  destruct (clearLines_points fourLinesGame 0 0 squarePiece)
    as (placed & g' & Hfill & Hplace & Hpoints & _).
  - split; [reflexivity | repeat constructor].
  - repeat constructor.
  - reflexivity.
  - exists g'. split; [done|].
    vm_compute in Hfill. injection Hfill as <-.
    by destruct (Hpoints 4) as [-> _].
Defined.

(** C6. After the line clear of a validated placement, the cells cleared
    are the cells of the full rows and full columns of the filled grid,
    each visited once; each of them held a colour and is empty afterwards;
    every other cell reads as on the filled grid; and without a full row or
    column the state is the one the placement left. *)
Theorem clearLines_clears_union (g : Game) (col row : Z) (piece : Piece) :
  wf_grid (grid g) → rectangular (shape piece) →
  isValidPlacement (grid g) col row (Some piece) = true →
  ∃ placed g',
    fillCells col row piece (grid g) = Some placed ∧
    placePiece col row piece g = Some g' ∧
    (∀ r, r ∈ rowsToClear placed ↔
          (r < 8)%nat ∧ ∀ c, (c < 8)%nat → filled placed r c) ∧
    (∀ c, c ∈ colsToClear placed ↔
          (c < 8)%nat ∧ ∀ r, (r < 8)%nat → filled placed r c) ∧
    NoDup (cellsToClear (rowsToClear placed) (colsToClear placed)) ∧
    (∀ r c,
       (r, c) ∈ cellsToClear (rowsToClear placed) (colsToClear placed) ↔
       (r < 8)%nat ∧ (c < 8)%nat ∧
       (r ∈ rowsToClear placed ∨ c ∈ colsToClear placed)) ∧
    (∀ r c,
       (r, c) ∈ cellsToClear (rowsToClear placed) (colsToClear placed) →
       filled placed r c ∧ at2 (grid g') r c = Some None) ∧
    (∀ r c,
       (r, c) ∉ cellsToClear (rowsToClear placed) (colsToClear placed) →
       at2 (grid g') r c = at2 placed r c) ∧
    (rowsToClear placed = [] → colsToClear placed = [] →
     g' = with_grid g placed).
Proof.
  intros Hwf Hrect Hvalid.
  destruct (placePiece_runs g col row piece Hwf Hrect Hvalid)
    as (placed & g' & Hfill & Hplaced & Hplace & Hlines).
  exists placed, g'. split; [done|]. split; [done|].
  assert (∀ r, r ∈ rowsToClear placed ↔
            (r < 8)%nat ∧ ∀ c, (c < 8)%nat → filled placed r c) as Hrows.
  { intros r. rewrite rowsToClear_elem. split.
    - intros [Hr Hfull]. split; [done|]. by apply rowFull_spec.
    - intros [Hr Hfull]. split; [done|]. by apply rowFull_spec. }
  assert (∀ c, c ∈ colsToClear placed ↔
            (c < 8)%nat ∧ ∀ r, (r < 8)%nat → filled placed r c) as Hcols.
  { intros c. rewrite colsToClear_elem. split.
    - intros [Hc Hfull]. split; [done|]. by apply colFull_spec.
    - intros [Hc Hfull]. split; [done|]. by apply colFull_spec. }
  assert (∀ r c,
    (r, c) ∈ cellsToClear (rowsToClear placed) (colsToClear placed) ↔
    (r < 8)%nat ∧ (c < 8)%nat ∧
    (r ∈ rowsToClear placed ∨ c ∈ colsToClear placed)) as Hcleared.
  { intros r c. rewrite cellsToClear_elem. unfold GRID_SIZE. split.
    - intros [[Hr Hc] | [Hc Hr]].
      + pose proof (proj1 (Hrows r) Hr) as [? _]. auto.
      + pose proof (proj1 (Hcols c) Hc) as [? _]. auto.
    - intros (Hr & Hc & [Hin | Hin]); auto. }
  destruct (checkForLines_grid (with_grid g placed) Hplaced)
    as (g'' & Hlines' & Hclear & Hsame).
  rewrite Hlines in Hlines'. injection Hlines' as <-. simpl in Hclear.
  destruct (clearCells_spec
    (cellsToClear (rowsToClear placed) (colsToClear placed)) placed Hplaced)
    as (gr & Hclear' & _ & Hcells).
  { intros r c Hin. apply Hcleared in Hin. unfold GRID_SIZE. tauto. }
  rewrite Hclear in Hclear'. injection Hclear' as <-.
  split; [done|]. split; [done|].
  split; [apply cellsToClear_NoDup|]. split; [done|].
  split; [|split].
  - intros r c Hin. split.
    + apply Hcleared in Hin as (Hr & Hc & [Hin | Hin]).
      * by apply Hrows in Hin as [_ Hfull]; apply Hfull.
      * by apply Hcols in Hin as [_ Hfull]; apply Hfull.
    + by rewrite Hcells, decide_True.
  - intros r c Hout. by rewrite Hcells, decide_False.
  - exact Hsame.
Qed.

Lemma clearLines_clears_union_witness :
  ∃ g', placePiece 0 0 squarePiece fourLinesGame = Some g' ∧
        at2 (grid g') 0 0 = Some None ∧
        at2 (grid g') 7 7 = Some None.
Proof.
  destruct (clearLines_clears_union fourLinesGame 0 0 squarePiece)
    as (placed & g' & Hfill & Hplace & _ & _ & _ & Hin & Hclear & Hkeep & _).
  - split; [reflexivity | repeat constructor].
  - repeat constructor.
  - reflexivity.
  - exists g'. split; [done|].
    vm_compute in Hfill. injection Hfill as <-. split.
    + apply Hclear. rewrite cellsToClear_elem. left.
      split; [by vm_compute; left | unfold GRID_SIZE; lia].
    + rewrite Hkeep; [done|]. rewrite cellsToClear_elem.
      vm_compute. intros [[Hin' _] | [Hin' _]];
        repeat (apply elem_of_cons in Hin' as [? | Hin']; [done|]);
        by apply not_elem_of_nil in Hin'.
Defined.

(** ** The game-over check *)

Lemma canPlaceAny_spec g : canPlaceAny g = true ↔ fitsSomewhere g.
Proof.
  unfold canPlaceAny, fitsSomewhere, GRID_SIZE. rewrite existsb_exists. split.
  - intros ([piece|] & Hslot & Hfit); [|done].
    apply list_elem_of_In, list_elem_of_lookup_1 in Hslot as [i Hi].
    apply existsb_exists in Hfit as (r & [_ Hr]%in_seq & Hfit).
    apply existsb_exists in Hfit as (c & [_ Hc]%in_seq & Hfit).
    exists i, piece, r, c. auto.
  - intros (i & piece & r & c & Hi & Hr & Hc & Hfit).
    exists (Some piece). split.
    { apply list_elem_of_In. by eapply list_elem_of_lookup_2. }
    apply existsb_exists. exists r. split; [apply in_seq; lia|].
    apply existsb_exists. exists c. split; [apply in_seq; lia | done].
Qed.

Lemma someUnused_spec g :
  existsb (λ p, bool_decide (p ≠ None)) (activePieces g) = true ↔
  someUnused g.
Proof.
  unfold someUnused. rewrite existsb_exists. split.
  - intros ([piece|] & Hslot & Hsome); [|by apply bool_decide_eq_true in Hsome].
    apply list_elem_of_In, list_elem_of_lookup_1 in Hslot as [i Hi]. eauto.
  - intros (i & piece & Hi). exists (Some piece). split.
    + apply list_elem_of_In. by eapply list_elem_of_lookup_2.
    + by apply bool_decide_eq_true.
Qed.

Lemma cons_neq {A} (x : A) (l : list A) : l ≠ x :: l.
Proof.
  intros H. apply (f_equal length) in H. simpl in H. lia.
Qed.

(** C5. [checkGameOver] calls [triggerGameOver] (the final score and the
    modal are shown) exactly when no unused piece of the tray validates at
    any of the 64 anchors and the tray holds an unused piece; when some
    combination validates or no piece is unused, the state is untouched. *)
Theorem checkGameOver_spec (g : Game) :
  (trace (checkGameOver g) = GameOverShown (score g) :: trace g ↔
   ¬ fitsSomewhere g ∧ someUnused g) ∧
  (¬ fitsSomewhere g ∧ someUnused g → checkGameOver g = triggerGameOver g) ∧
  (fitsSomewhere g ∨ ¬ someUnused g → checkGameOver g = g).
Proof.
  pose proof (canPlaceAny_spec g) as Hfit.
  pose proof (someUnused_spec g) as Hunused.
  unfold checkGameOver.
  destruct (canPlaceAny g); simpl.
  - split; [|split].
    + split; [by intros ?%cons_neq|].
      intros [Hno _]. destruct Hno. by apply Hfit.
    + intros [Hno _]. destruct Hno. by apply Hfit.
    + done.
  - assert (¬ fitsSomewhere g) as Hno by (intros ?%Hfit; done).
    destruct (existsb _ _).
    + assert (someUnused g) as Hsome by by apply Hunused.
      split; [|split]; [done | done |].
      intros [? | ?]; done.
    + assert (¬ someUnused g) as Hnone by (intros ?%Hunused; done).
      split; [|split].
      * split; [by intros ?%cons_neq | tauto].
      * tauto.
      * done.
Qed.

Lemma checkGameOver_spec_witness :
  checkGameOver stuckGame = triggerGameOver stuckGame.
Proof.
  apply (proj1 (proj2 (checkGameOver_spec stuckGame))). split.
  - intros Hfit%canPlaceAny_spec. by vm_compute in Hfit.
  - exists 1%nat, (mkPiece [[1]] "#FF5733"). reflexivity.
Defined.

(** ** Rotation *)

Lemma dims_write2 {A} (m : list (list A)) (R C i j : nat) v :
  length <$> m = replicate C R → (i < C)%nat → (j < R)%nat →
  ∃ m', write2 m i j v = Some m'.
Proof.
  intros Hdims Hi Hj.
  assert (length m = C) as Hlen
    by by rewrite <- (length_fmap length), Hdims, length_replicate.
  destruct (lookup_lt_is_Some_2 m i) as [row Hrow]; [lia|].
  assert ((length <$> m) !! i = Some (length row)) as Hrowlen
    by by rewrite list_lookup_fmap, Hrow.
  rewrite Hdims in Hrowlen. apply lookup_replicate in Hrowlen as [Hrowlen _].
  eexists. apply write2_Some. exists row. split; [done|]. split; [lia | done].
Qed.

Lemma rotateTarget_range clockwise R C r c :
  (r < R)%nat → (c < C)%nat →
  ((rotateTarget clockwise R C r c).1 < C)%nat ∧
  ((rotateTarget clockwise R C r c).2 < R)%nat.
Proof. intros Hr Hc. destruct clockwise; simpl; lia. Qed.

Lemma rotateTarget_inj clockwise R C r c r' c' :
  (r < R)%nat → (c < C)%nat → (r' < R)%nat → (c' < C)%nat →
  rotateTarget clockwise R C r c = rotateTarget clockwise R C r' c' →
  r = r' ∧ c = c'.
Proof. intros ? ? ? ?. destruct clockwise; simpl; intros [= ? ?]; lia. Qed.

(** The two loops of [rotateMatrix] run to their end on a rectangular
    matrix with a row 0; the result has the transposed dimensions and holds
    every cell of the matrix at its target. *)
Lemma rotateMatrix_cells (m : Matrix) (clockwise : bool) :
  rectangular m → (0 < length m)%nat →
  ∃ m', rotateMatrix m clockwise = Some m' ∧
    length <$> m' = replicate (cols0 m) (length m) ∧
    ∀ r c, (r < length m)%nat → (c < cols0 m)%nat →
      at2 m' (rotateTarget clockwise (length m) (cols0 m) r c).1
             (rotateTarget clockwise (length m) (cols0 m) r c).2 =
      at2 m r c.
Proof.
  intros Hrect Hrows.
  destruct (lookup_lt_is_Some_2 m 0%nat Hrows) as [row0 Hrow0].
  unfold rotateMatrix. rewrite Hrow0. simpl.
  assert (length row0 = cols0 m) as -> by (unfold cols0; by rewrite Hrow0).
  set (R := length m). set (C := cols0 m).
  set (T := rotateTarget clockwise R C).
  (* the outer loop: rows below [k] are in place *)
  apply (for__invariant (λ k nm,
    length <$> nm = replicate C R ∧
    ∀ r c, (r < k)%nat → (c < C)%nat →
      at2 nm (T r c).1 (T r c).2 = at2 m r c)).
  { split; [|intros; lia].
    by rewrite fmap_replicate, length_replicate. }
  intros r nm Hr [Hdims Hdone].
  (* the inner loop: in row [r], columns below [j] are in place *)
  destruct (for__invariant (λ j nm',
    length <$> nm' = replicate C R ∧
    (∀ r' c, (r' < r)%nat → (c < C)%nat →
       at2 nm' (T r' c).1 (T r' c).2 = at2 m r' c) ∧
    (∀ c, (c < j)%nat → at2 nm' (T r c).1 (T r c).2 = at2 m r c))
    C (λ c newMatrix,
      v ← at2 m r c;
      if clockwise then write2 newMatrix c (R - 1 - r)%nat v
      else write2 newMatrix (C - 1 - c)%nat r v) nm)
    as (nm' & Hrun & Hdims' & Hrows' & Hrow').
  { split; [done|]. split; [done | intros; lia]. }
  { intros c t Hc (Hdt & Hrowst & Hrowt).
    destruct (at2_is_Some m r c Hrect Hr Hc) as [v Hv].
    rewrite Hv. simpl.
    assert ((if clockwise then write2 t c (R - 1 - r)%nat v
             else write2 t (C - 1 - c)%nat r v) =
            write2 t (T r c).1 (T r c).2 v) as -> by by destruct clockwise.
    destruct (rotateTarget_range clockwise R C r c Hr Hc) as [Hi Hj].
    destruct (dims_write2 t R C (T r c).1 (T r c).2 v Hdt Hi Hj)
      as [t' Hwrite].
    exists t'. split; [done|]. split; [|split].
    - by rewrite (write2_dims _ _ _ _ _ Hwrite).
    - intros r' c' Hr' Hc'.
      rewrite (write2_at2 _ _ _ _ _ _ _ Hwrite), decide_False; [auto|].
      intros [H1 H2].
      destruct (rotateTarget_inj clockwise R C r' c' r c); [lia.. | |lia].
      by apply injective_projections.
    - intros c' Hc'.
      rewrite (write2_at2 _ _ _ _ _ _ _ Hwrite).
      destruct (decide (c' = c)) as [->|Hne].
      + by rewrite decide_True.
      + rewrite decide_False; [apply Hrowt; lia|].
        intros [H1 H2].
        destruct (rotateTarget_inj clockwise R C r c' r c); [lia.. | |lia].
        by apply injective_projections. }
  exists nm'. split; [done|]. split; [done|].
  intros r' c Hr' Hc.
  destruct (decide (r' = r)) as [->|Hne]; [auto|].
  apply Hrows'; lia.
Qed.

Lemma rotateAllPieces_slots clockwise g g' :
  rotateAllPieces clockwise g = Some g' →
  Forall2 (rotatedSlot clockwise) (activePieces g) (activePieces g').
Proof.
  unfold rotateAllPieces. intros H.
  destruct (mapM _ _) as [pieces|] eqn:Hmap; [|done]. simpl in H.
  injection H as <-.
  destruct (checkGameOver_frame (with_pieces g pieces))
    as (_ & _ & _ & _ & ->). simpl.
  apply mapM_Some in Hmap.
  eapply Forall2_impl; [done|].
  intros [piece|] slot' Hrot; simpl in Hrot.
  - destruct (rotateMatrix _ _) as [sh|] eqn:Hsh; [|done].
    simpl in Hrot. injection Hrot as <-. simpl. by rewrite Hsh.
  - by injection Hrot as <-.
Qed.

(** C7. On an R x C shape matrix (R rows, each of C cells, R > 0)
    [rotateMatrix] returns a matrix of C rows of R cells that holds cell
    (r,c) of the argument at (c, R-1-r) when clockwise and at (C-1-c, r)
    when counter-clockwise; [rotateAllPieces] rotates the matrix of every
    piece of the tray and leaves its colour. *)
Theorem rotateMatrix_spec (m : Matrix) (clockwise : bool) :
  rectangular m → (0 < length m)%nat →
  (∃ m', rotateMatrix m clockwise = Some m' ∧
     length m' = cols0 m ∧
     Forall (λ row, length row = length m) m' ∧
     ∀ r c, (r < length m)%nat → (c < cols0 m)%nat →
       at2 m' (rotateTarget clockwise (length m) (cols0 m) r c).1
              (rotateTarget clockwise (length m) (cols0 m) r c).2 =
       at2 m r c) ∧
  (∀ g g', rotateAllPieces clockwise g = Some g' →
     Forall2 (rotatedSlot clockwise) (activePieces g) (activePieces g')).
Proof.
  intros Hrect Hrows. split; [|apply rotateAllPieces_slots].
  destruct (rotateMatrix_cells m clockwise Hrect Hrows)
    as (m' & Hrun & Hdims & Hcells).
  exists m'. split; [done|]. split; [|split]; [| |done].
  - by rewrite <- (length_fmap length), Hdims, length_replicate.
  - apply Forall_forall. intros row (i & Hi)%list_elem_of_lookup_1.
    assert ((length <$> m') !! i = Some (length row)) as Hrow
      by by rewrite list_lookup_fmap, Hi.
    rewrite Hdims in Hrow. by apply lookup_replicate in Hrow as [-> _].
Qed.

Lemma rotateMatrix_spec_witness :
  ∃ m', rotateMatrix [[0; 1; 0]; [1; 1; 1]] true = Some m' ∧
        at2 m' 0 1 = Some 0 ∧ at2 m' 2 0 = Some 1.
Proof.
  destruct (rotateMatrix_spec [[0; 1; 0]; [1; 1; 1]] true)
    as [(m' & Hrun & _ & _ & Hcells) _].
  - repeat constructor.
  - simpl. lia.
  - exists m'. split; [done|]. split.
    + apply (Hcells 0%nat 0%nat); vm_compute; lia.
    + apply (Hcells 1%nat 2%nat); vm_compute; lia.
Defined.

(** C8. Four clockwise rotations, and four counter-clockwise ones, of every
    shape matrix of the Small, Tetromino and Complex pools give back the
    matrix. *)
Theorem rotate_four_times :
  Forall (λ m, rotateTimes 4 true m = Some m ∧ rotateTimes 4 false m = Some m)
         (SMALL_BLOCKS ++ TETROMINOES ++ COMPLEX_SHAPES).
Proof.
  unfold SMALL_BLOCKS, TETROMINOES, COMPLEX_SHAPES. simpl.
  repeat (apply Forall_cons; split; [split; reflexivity|]).
  apply Forall_nil_2.
Qed.

(** ** Piece generation *)

Lemma Qltb_lt x y : Qltb x y = true ↔ (x < y)%Q.
Proof.
  unfold Qltb. rewrite negb_true_iff. split.
  - intros H. apply Qnot_le_lt. intros Hle%Qle_bool_iff. congruence.
  - intros H. destruct (Qle_bool y x) eqn:Hle; [|done].
    apply Qle_bool_iff in Hle. by apply Qlt_not_le in H.
Qed.

Lemma Qltb_ge x y : Qltb x y = false ↔ (y <= x)%Q.
Proof.
  unfold Qltb. rewrite negb_false_iff. apply Qle_bool_iff.
Qed.

(** ** The rounding of the double product *)

Lemma Qfloor_lt_Z q K : (q < inject_Z K)%Q → Qfloor q < K.
Proof.
  intros H. rewrite Zlt_Qlt. eapply Qle_lt_trans; [apply Qfloor_le | done].
Qed.

Lemma Qfloor_ge_Z q K : (inject_Z K <= q)%Q → K ≤ Qfloor q.
Proof. intros H%Qfloor_resp_le. by rewrite Qfloor_Z in H. Qed.

Lemma inject_Z_pred K : inject_Z (K - 1) == (inject_Z K - 1)%Q.
Proof. unfold Z.sub. rewrite inject_Z_plus. reflexivity. Qed.


Lemma roundHalfEven_bounds q :
  Qfloor q ≤ roundHalfEven q ≤ Qfloor q + 1.
Proof. unfold roundHalfEven. repeat case_match; lia. Qed.

Lemma roundHalfEven_ge q K : (inject_Z K <= q)%Q → K ≤ roundHalfEven q.
Proof.
  intros H%Qfloor_ge_Z. pose proof (roundHalfEven_bounds q). lia.
Qed.

Lemma roundHalfEven_lt_half q K :
  (q < inject_Z K - (1 # 2))%Q → roundHalfEven q ≤ K - 1.
Proof.
  intros H.
  assert (Qfloor q < K) as Hf by (apply Qfloor_lt_Z; lra).
  destruct (decide (Qfloor q = K - 1)) as [Heq|Hne].
  - unfold roundHalfEven.
    assert (q - inject_Z (Qfloor q) < 1 # 2)%Q as Hlt.
    { rewrite Heq, inject_Z_pred. lra. }
    destruct (Qcompare_spec (q - inject_Z (Qfloor q)) (1 # 2)); [lra | lia | lra].
  - pose proof (roundHalfEven_bounds q). lia.
Qed.

Lemma roundHalfEven_ge_half q K :
  K ≤ roundHalfEven q → (inject_Z K - (1 # 2) <= q)%Q.
Proof.
  intros H. apply Qnot_lt_le. intros Hlt%roundHalfEven_lt_half. lia.
Qed.

Lemma ulp_pos y : (0 < ulp y)%Q.
Proof.
  unfold ulp. apply Qlt_shift_div_l.
  - rewrite <- (Zlt_Qlt 0). by apply Z.pow_pos_nonneg.
  - rewrite Qmult_0_l, <- (Zlt_Qlt 0). apply Z.pow_pos_nonneg; lia.
Qed.

(** The exponent of the gap, counted from 2^-1074. *)
Lemma ulp_exponent y :
  (0 <= y)%Q →
  ∃ m, 0 ≤ m ∧ ulp y = (inject_Z (2 ^ m) / inject_Z (2 ^ 1074))%Q ∧
    (m = 0 ∨ (inject_Z (2 ^ (m + 52)) <= y * inject_Z (2 ^ 1074))%Q) ∧
    ∀ b, 53 ≤ b → (y * inject_Z (2 ^ 1074) < inject_Z (2 ^ b))%Q →
         m ≤ b - 53.
Proof.
  intros Hy. unfold ulp.
  assert (Qfloor (Qabs y * inject_Z (2 ^ 1074)) =
          Qfloor (y * inject_Z (2 ^ 1074))) as ->.
  { apply Qfloor_comp. by rewrite Qabs_pos. }
  set (s := Qfloor (y * inject_Z (2 ^ 1074))).
  exists (Z.max (Z.log2 s - 52) 0). split; [lia|]. split; [done|]. split.
  - destruct (Z.max_spec (Z.log2 s - 52) 0) as [[Hlt ->] | [Hge ->]]; [auto|].
    right. replace (Z.log2 s - 52 + 52) with (Z.log2 s) by lia.
    assert (0 < s) as Hs.
    { destruct (decide (0 < s)); [done|].
      rewrite Z.log2_nonpos in Hge by lia. lia. }
    eapply Qle_trans; [|apply Qfloor_le]. fold s.
    rewrite <- Zle_Qle. by apply Z.log2_spec.
  - intros b Hb Hlt.
    assert (s < 2 ^ b) as Hs by by apply Qfloor_lt_Z.
    destruct (decide (0 < s)) as [Hpos|Hneg].
    + apply Z.log2_lt_pow2 in Hs; [lia | done].
    + rewrite Z.log2_nonpos by lia. lia.
Qed.

Lemma pow2_split a b :
  0 ≤ a → 0 ≤ b →
  inject_Z (2 ^ (a + b)) == (inject_Z (2 ^ a) * inject_Z (2 ^ b))%Q.
Proof. intros Ha Hb. by rewrite Z.pow_add_r, inject_Z_mult. Qed.

Lemma pow2_pos a : 0 ≤ a → (0 < inject_Z (2 ^ a))%Q.
Proof. intros Ha. rewrite <- (Zlt_Qlt 0). by apply Z.pow_pos_nonneg. Qed.

Section rounding.
Context (y : Q).

Lemma roundDouble_grid_ge N :
  (inject_Z N * ulp y <= y)%Q → (inject_Z N * ulp y <= roundDouble y)%Q.
Proof.
  intros H. pose proof (ulp_pos y) as Hu. unfold roundDouble.
  apply Qmult_le_compat_r; [|lra].
  rewrite <- Zle_Qle. apply roundHalfEven_ge. by apply Qle_shift_div_l.
Qed.

Lemma roundDouble_grid_lt_half N :
  (y < (inject_Z N - (1 # 2)) * ulp y)%Q →
  (roundDouble y <= inject_Z (N - 1) * ulp y)%Q.
Proof.
  intros H. pose proof (ulp_pos y) as Hu. unfold roundDouble.
  apply Qmult_le_compat_r; [|lra].
  rewrite <- Zle_Qle. apply roundHalfEven_lt_half. by apply Qlt_shift_div_r.
Qed.

Lemma roundDouble_grid_ge_half N :
  (inject_Z N * ulp y <= roundDouble y)%Q →
  ((inject_Z N - (1 # 2)) * ulp y <= y)%Q.
Proof.
  intros H. pose proof (ulp_pos y) as Hu. unfold roundDouble in H.
  apply Qmult_le_r in H; [|done]. rewrite <- Zle_Qle in H.
  apply roundHalfEven_ge_half in H.
  apply (Qmult_le_compat_r _ _ (ulp y)) in H; [|lra].
  assert (y / ulp y * ulp y == y)%Q as Heq by (field; lra).
  by rewrite Heq in H.
Qed.
End rounding.

(** An integer lies on the grid of the doubles around a [y] below 16. *)
Lemma ulp_grid y K :
  (0 <= y)%Q → (y < 16)%Q →
  (ulp y <= 1 # 2 ^ 49)%Q ∧ ∃ N, inject_Z K == (inject_Z N * ulp y)%Q.
Proof.
  intros Hy Hlt. destruct (ulp_exponent y Hy) as (m & Hm & -> & _ & Hup).
  assert (m ≤ 1025) as Hm'.
  { apply (Hup 1078); [lia|].
    assert (inject_Z (2 ^ 1078) == 16 * inject_Z (2 ^ 1074))%Q as ->
      by by vm_compute.
    apply Qmult_lt_r; [by apply pow2_pos | done]. }
  pose proof (pow2_pos 1074 ltac:(lia)) as HW.
  pose proof (pow2_pos m Hm) as Hpm. split.
  - apply Qle_shift_div_r; [done|].
    assert ((1 # 2 ^ 49) * inject_Z (2 ^ 1074) == inject_Z (2 ^ 1025))%Q as ->
      by by vm_compute.
    rewrite <- Zle_Qle. apply Z.pow_le_mono_r; lia.
  - exists (K * 2 ^ (1074 - m)).
    rewrite inject_Z_mult.
    pose proof (pow2_split (1074 - m) m ltac:(lia) Hm) as Hsplit.
    replace (1074 - m + m) with 1074 in Hsplit by lia.
    pose proof (pow2_pos (1074 - m) ltac:(lia)) as Hpd.
    rewrite Hsplit. field. split; lra.
Qed.

(** The gap around a [y] below [n] is below [n / 2^52]. *)
Lemma ulp_below y n :
  (0 <= y)%Q → (y < n)%Q → (1 <= n)%Q → (ulp y < n * (1 # 2 ^ 52))%Q.
Proof.
  intros Hy Hlt Hn. destruct (ulp_exponent y Hy) as (m & Hm & -> & Hlow & _).
  pose proof (pow2_pos 1074 ltac:(lia)) as HW.
  apply Qlt_shift_div_r; [done|].
  assert (inject_Z (2 ^ m) * inject_Z (2 ^ 52)
          < n * inject_Z (2 ^ 1074))%Q as Hscaled.
  { destruct Hlow as [-> | Hlow].
    - assert (inject_Z (2 ^ 0) * inject_Z (2 ^ 52)
              < 1 * inject_Z (2 ^ 1074))%Q by by vm_compute.
      eapply Qlt_le_trans; [done|].
      apply Qmult_le_compat_r; lra.
    - rewrite <- pow2_split by lia.
      eapply Qle_lt_trans; [done|].
      apply Qmult_lt_r; done. }
  assert (inject_Z (2 ^ 52) == 4503599627370496)%Q as H52 by by vm_compute.
  rewrite H52 in Hscaled.
  assert ((1 # 2 ^ 52) == 1 / 4503599627370496)%Q as -> by by vm_compute.
  set (w := inject_Z (2 ^ 1074)) in *. set (p := inject_Z (2 ^ m)) in *.
  assert (n * (1 / 4503599627370496) * w == n * w / 4503599627370496)%Q as ->
    by field.
  apply Qlt_shift_div_l; lra.
Qed.

(** A double below 1 is at most the last double before 1. *)
Lemma double_below_one x :
  isDouble x → (0 <= x)%Q → (x < 1)%Q → (x <= 1 - (1 # 2 ^ 53))%Q.
Proof.
  intros Hdouble Hx Hlt.
  destruct (Qlt_le_dec x (1 # 2)) as [Hsmall|Hbig].
  { assert ((1 # 2) <= 1 - (1 # 2 ^ 53))%Q by by vm_compute. lra. }
  destruct (ulp_exponent x Hx) as (m & Hm & Hulp & Hlow & Hup).
  pose proof (pow2_pos 1074 ltac:(lia)) as HW.
  assert (m = 1021) as ->.
  { assert (m ≤ 1021).
    { apply (Hup 1074); [lia|].
      rewrite <- (Qmult_1_l (inject_Z (2 ^ 1074))) at 2.
      by apply Qmult_lt_r. }
    assert (1021 ≤ m); [|lia].
    unfold ulp in Hulp.
    assert (Qfloor (Qabs x * inject_Z (2 ^ 1074)) =
            Qfloor (x * inject_Z (2 ^ 1074))) as Hfloor.
    { apply Qfloor_comp. by rewrite Qabs_pos. }
    assert (2 ^ 1073 ≤ Qfloor (x * inject_Z (2 ^ 1074))) as Hs.
    { apply Qfloor_ge_Z.
      assert (inject_Z (2 ^ 1073) == (1 # 2) * inject_Z (2 ^ 1074))%Q as ->
        by by vm_compute.
      apply Qmult_le_compat_r; lra. }
    assert (1073 ≤ Z.log2 (Qfloor (x * inject_Z (2 ^ 1074)))) as Hlog.
    { apply Z.log2_le_pow2; [|done].
      eapply Z.lt_le_trans; [|exact Hs]. by apply Z.pow_pos_nonneg. }
    rewrite Hfloor in Hulp.
    assert (inject_Z (2 ^ Z.max
              (Z.log2 (Qfloor (x * inject_Z (2 ^ 1074))) - 52) 0)
            == inject_Z (2 ^ m))%Q as Heq.
    { assert (∀ a b c : Q, 0 < c → a / c = b / c → a == b)%Q as Hcancel.
      { intros a b c Hc Habc.
        assert (a == a / c * c)%Q as -> by (field; lra).
        rewrite Habc. field. lra. }
      by apply (Hcancel _ _ (inject_Z (2 ^ 1074))). }
    pose proof (proj1 (inject_Z_injective _ _) Heq) as Hpow.
    apply Z.pow_inj_r in Hpow; lia. }
  unfold isDouble, roundDouble in Hdouble. rewrite Hulp in Hdouble.
  set (M := roundHalfEven (x / (inject_Z (2 ^ 1021) / inject_Z (2 ^ 1074))))
    in Hdouble.
  assert (inject_Z (2 ^ 1021) / inject_Z (2 ^ 1074) == 1 # 2 ^ 53)%Q as Hc
    by by vm_compute.
  rewrite Hc in Hdouble.
  assert (M < 2 ^ 53) as HM.
  { rewrite Zlt_Qlt.
    assert (inject_Z (2 ^ 53) == 9007199254740992)%Q as -> by by vm_compute.
    assert ((1 # 2 ^ 53) == 1 / 9007199254740992)%Q as Hc' by by vm_compute.
    rewrite Hc' in Hdouble.
    assert (inject_Z M == x * 9007199254740992)%Q as ->
      by (rewrite <- Hdouble; field).
    lra. }
  assert (inject_Z M <= inject_Z (2 ^ 53 - 1))%Q as HM'
    by (rewrite <- Zle_Qle; lia).
  rewrite <- Hdouble.
  assert (1 - (1 # 2 ^ 53) == inject_Z (2 ^ 53 - 1) * (1 # 2 ^ 53))%Q as ->
    by by vm_compute.
  apply Qmult_le_compat_r; [done | by vm_compute].
Qed.

(** The index [Math.floor(x * n)] of the code, for a double [x] of [0,1)
    and a length [n] up to 16: it is below [n], and the exact product lies
    in the slice of the index, or up to 2^-50 below it. *)
Lemma floor_product x (n : Z) :
  isDouble x → (0 <= x)%Q → (x < 1)%Q → 1 ≤ n ≤ 16 →
  0 ≤ Qfloor (roundDouble (x * inject_Z n)) < n ∧
  (inject_Z (Qfloor (roundDouble (x * inject_Z n))) - (1 # 2 ^ 50)
     <= x * inject_Z n)%Q ∧
  (x * inject_Z n < inject_Z (Qfloor (roundDouble (x * inject_Z n)) + 1))%Q.
Proof.
  intros Hdouble Hx Hlt Hn.
  set (y := (x * inject_Z n)%Q). set (i := Qfloor (roundDouble y)).
  assert (inject_Z 1 <= inject_Z n)%Q as Hn1 by (rewrite <- Zle_Qle; lia).
  change (inject_Z 1) with 1%Q in Hn1.
  assert (inject_Z n <= inject_Z 16)%Q as Hn16 by (rewrite <- Zle_Qle; lia).
  change (inject_Z 16) with 16%Q in Hn16.
  assert (0 <= y)%Q as Hy by (apply Qmult_le_0_compat; lra).
  pose proof (double_below_one x Hdouble Hx Hlt) as Hpred.
  assert (y <= inject_Z n - inject_Z n * (1 # 2 ^ 53))%Q as Hy1.
  { unfold y.
    assert (inject_Z n - inject_Z n * (1 # 2 ^ 53)
            == (1 - (1 # 2 ^ 53)) * inject_Z n)%Q as -> by ring.
    apply Qmult_le_compat_r; lra. }
  assert (0 < (1 # 2 ^ 53))%Q as H53 by done.
  assert (y < inject_Z n)%Q as Hyn.
  { assert (0 < inject_Z n * (1 # 2 ^ 53))%Q
      by (apply Qmult_lt_0_compat; lra). lra. }
  assert (y < 16)%Q as Hy16 by lra.
  pose proof (ulp_pos y) as Hu.
  pose proof (ulp_below y (inject_Z n) Hy Hyn Hn1) as Hgap.
  assert ((1 # 2 ^ 52) == 2 * (1 # 2 ^ 53))%Q as H52 by by vm_compute.
  assert ((1 # 2 ^ 49) == 2 * (1 # 2 ^ 50))%Q as H49 by by vm_compute.
  split; [split|split].
  - apply Qfloor_ge_Z.
    destruct (ulp_grid y 0 Hy Hy16) as (_ & N & HN).
    assert (inject_Z 0 == inject_Z 0 * ulp y)%Q as -> by ring.
    apply roundDouble_grid_ge. change (inject_Z 0) with 0%Q. lra.
  - apply Qfloor_lt_Z.
    destruct (ulp_grid y n Hy Hy16) as (_ & N & HN).
    assert (roundDouble y <= inject_Z (N - 1) * ulp y)%Q as Hle.
    { apply roundDouble_grid_lt_half.
      assert ((inject_Z N - (1 # 2)) * ulp y
              == inject_Z n - (1 # 2) * ulp y)%Q as -> by (rewrite HN; ring).
      rewrite H52 in Hgap.
      assert (inject_Z n * (2 * (1 # 2 ^ 53))
              == 2 * (inject_Z n * (1 # 2 ^ 53)))%Q as Hassoc by ring.
      rewrite Hassoc in Hgap. lra. }
    assert (inject_Z (N - 1) * ulp y == inject_Z n - ulp y)%Q as Hpred'.
    { rewrite inject_Z_pred, HN. ring. }
    lra.
  - destruct (ulp_grid y i Hy Hy16) as (Hsmall & N & HN).
    assert (inject_Z N * ulp y <= roundDouble y)%Q as Hle
      by (rewrite <- HN; apply Qfloor_le).
    apply roundDouble_grid_ge_half in Hle.
    assert ((inject_Z N - (1 # 2)) * ulp y
            == inject_Z i - (1 # 2) * ulp y)%Q as Heq by (rewrite HN; ring).
    rewrite Heq in Hle. rewrite H49 in Hsmall. lra.
  - apply Qnot_le_lt. intros Hge.
    destruct (ulp_grid y (i + 1) Hy Hy16) as (_ & N & HN).
    rewrite HN in Hge. apply roundDouble_grid_ge in Hge. rewrite <- HN in Hge.
    apply Qfloor_ge_Z in Hge. fold i in Hge. lia.
Qed.

(** The gap of a [y] between 2^L and 2^(L+1) units of 2^-1074. *)
Lemma ulp_binade y L :
  0 ≤ L →
  (inject_Z (2 ^ L) <= y * inject_Z (2 ^ 1074))%Q →
  (y * inject_Z (2 ^ 1074) < inject_Z (2 ^ (L + 1)))%Q →
  ulp y = (inject_Z (2 ^ Z.max (L - 52) 0) / inject_Z (2 ^ 1074))%Q.
Proof.
  intros HL Hlow Hhigh.
  pose proof (pow2_pos 1074 ltac:(lia)) as HW.
  pose proof (pow2_pos L HL) as HpL.
  assert (0 <= y)%Q as Hy.
  { apply Qnot_lt_le. intros Hneg.
    assert (y * inject_Z (2 ^ 1074) <= 0 * inject_Z (2 ^ 1074))%Q
      by (apply Qmult_le_compat_r; lra).
    lra. }
  unfold ulp.
  assert (Qfloor (Qabs y * inject_Z (2 ^ 1074)) =
          Qfloor (y * inject_Z (2 ^ 1074))) as ->.
  { apply Qfloor_comp. by rewrite Qabs_pos. }
  apply Qfloor_ge_Z in Hlow. apply Qfloor_lt_Z in Hhigh.
  by rewrite (Z.log2_unique _ L).
Qed.

(** No double lies between a decimal [c] and the double written [c], when
    that double is the one next above [c]: a double under the literal is
    under the decimal. *)
Lemma double_under_literal c x L :
  0 ≤ L →
  (inject_Z (2 ^ L) <= c * inject_Z (2 ^ 1074))%Q →
  (roundDouble c * inject_Z (2 ^ 1074) <= inject_Z (2 ^ (L + 1)))%Q →
  (inject_Z (roundHalfEven (c / ulp c) - 1) * ulp c < c)%Q →
  isDouble x → (x < roundDouble c)%Q → (x < c)%Q.
Proof.
  intros HL Hlow Hhigh Hprev Hdouble Hlt.
  destruct (Qlt_le_dec x c) as [|Hge]; [done|]. exfalso.
  pose proof (pow2_pos 1074 ltac:(lia)) as HW.
  assert (ulp x = ulp c) as Hulp.
  { rewrite (ulp_binade x L), (ulp_binade c L); try done.
    - eapply Qlt_le_trans; [|exact Hhigh]. apply Qmult_lt_r; [done | lra].
    - eapply Qle_trans; [exact Hlow|]. by apply Qmult_le_compat_r; [|lra].
    - eapply Qlt_le_trans; [|exact Hhigh]. by apply Qmult_lt_r. }
  pose proof (ulp_pos c) as Hu.
  unfold isDouble in Hdouble. unfold roundDouble in Hdouble, Hlt.
  rewrite Hulp in Hdouble.
  set (Mx := roundHalfEven (x / ulp c)) in *.
  set (Mc := roundHalfEven (c / ulp c)) in *.
  rewrite <- Hdouble in Hlt. apply Qmult_lt_r in Hlt; [|done].
  rewrite <- Zlt_Qlt in Hlt.
  assert (inject_Z Mx <= inject_Z (Mc - 1))%Q as Hle
    by (rewrite <- Zle_Qle; lia).
  apply (Qmult_le_compat_r _ _ (ulp c)) in Hle; [|lra].
  rewrite Hdouble in Hle. lra.
Qed.

(** The comparisons of [shapesPool]: the doubles written 0.4, 0.2 and 0.8
    are the ones next above the decimals, so a double is under the literal
    exactly when it is under the decimal. *)
Lemma literal_thresholds x :
  isDouble x →
  Qltb x (roundDouble 0.4) = Qltb x 0.4 ∧
  Qltb x (roundDouble 0.2) = Qltb x 0.2 ∧
  Qltb x (roundDouble 0.8) = Qltb x 0.8.
Proof.
  intros Hdouble.
  assert (∀ c L,
    0 ≤ L →
    (inject_Z (2 ^ L) <= c * inject_Z (2 ^ 1074))%Q →
    (roundDouble c * inject_Z (2 ^ 1074) <= inject_Z (2 ^ (L + 1)))%Q →
    (inject_Z (roundHalfEven (c / ulp c) - 1) * ulp c < c)%Q →
    (c <= roundDouble c)%Q →
    Qltb x (roundDouble c) = Qltb x c) as Hsame.
  { intros c L HL Hlow Hhigh Hprev Hup.
    destruct (Qltb x c) eqn:Hc.
    - apply Qltb_lt. apply Qltb_lt in Hc. lra.
    - apply Qltb_ge. apply Qltb_ge in Hc.
      apply Qnot_lt_le. intros Hlt.
      pose proof (double_under_literal c x L HL Hlow Hhigh Hprev Hdouble Hlt).
      lra. }
  split; [|split].
  - apply (Hsame _ 1072); [lia | vm_compute; congruence..].
  - apply (Hsame _ 1071); [lia | vm_compute; congruence..].
  - apply (Hsame _ 1073); [lia | vm_compute; congruence..].
Qed.

(** ** generateRandomPiece *)

Lemma shapesPool_length lvl rand :
  (0 < length (shapesPool lvl rand) ≤ 16)%nat.
Proof. unfold shapesPool. repeat case_match; simpl; lia. Qed.

(** A double of [0,1) picks an element of a list of 1 to 16 entries: the
    one at the floor of the double product, which is the one whose slice
    the draw falls in, or the next one for a draw at the very end of its
    slice. *)
Lemma pick_spec {A} (xs : list A) (x : Q) :
  unitDouble x → (0 < length xs ≤ 16)%nat →
  ∃ i v, (i < length xs)%nat ∧ xs !! i = Some v ∧ pick xs x = Some v ∧
         Z.of_nat i =
           Math_floor (roundDouble (x * inject_Z (Z.of_nat (length xs)))) ∧
         nearSlice x i (length xs).
Proof.
  intros (Hdouble & Hx0 & Hx1) Hlen. unfold pick, Math_floor.
  destruct (floor_product x (Z.of_nat (length xs)) Hdouble Hx0 Hx1)
    as ([Hfloor0 Hfloor1] & Hlow & Hhigh); [lia|].
  set (k := Qfloor (roundDouble (x * inject_Z (Z.of_nat (length xs))))) in *.
  destruct (lookup_lt_is_Some_2 xs (Z.to_nat k)) as [v Hv]; [lia|].
  exists (Z.to_nat k), v.
  split; [lia|]. split; [done|]. split; [|split].
  - destruct (0 <=? k) eqn:Hle; [done|]. apply Z.leb_gt in Hle. lia.
  - by rewrite Z2Nat.id.
  - unfold nearSlice. by rewrite Z2Nat.id.
Qed.






(** ** A session stays well-formed and never raises *)

Lemma pools_good :
  Forall goodShape (SMALL_BLOCKS ++ TETROMINOES ++ COMPLEX_SHAPES).
Proof.
  unfold SMALL_BLOCKS, TETROMINOES, COMPLEX_SHAPES. simpl.
  repeat (apply Forall_cons; split;
    [split; [repeat constructor | vm_compute; lia]|]).
  apply Forall_nil_2.
Qed.

Lemma pick_elem {A} (xs : list A) x v : pick xs x = Some v → v ∈ xs.
Proof.
  unfold pick. case_match; [|done]. apply list_elem_of_lookup_2.
Qed.

Lemma generateRandomPiece_good g d piece :
  generateRandomPiece g d = Some piece → goodShape (shape piece).
Proof.
  unfold generateRandomPiece. intros H.
  destruct (pick (shapesPool _ _) _) as [sh|] eqn:Hsh; [|done].
  destruct (pick COLORS _) as [co|]; [|done].
  simpl in H. injection H as <-. simpl.
  apply pick_elem in Hsh.
  pose proof pools_good as Hgood. rewrite Forall_forall in Hgood.
  apply Hgood. rewrite !elem_of_app.
  unfold shapesPool in Hsh. repeat case_match; auto.
Qed.

Lemma generateRandomPiece_runs g d :
  drawsOk d → ∃ piece, generateRandomPiece g d = Some piece.
Proof.
  intros [Hshape Hcolor]. unfold generateRandomPiece.
  destruct (pick_spec (shapesPool (level g) (drawPool d)) (drawShape d))
    as (_ & sh & _ & _ & -> & _); [done | apply shapesPool_length |].
  destruct (pick_spec COLORS (drawColor d))
    as (_ & co & _ & _ & -> & _); [done | simpl; lia |].
  simpl. eauto.
Qed.

Lemma spawnPieces_wf d1 d2 d3 g g' :
  spawnPieces d1 d2 d3 g = Some g' → wf_grid (grid g) → wf_game g'.
Proof.
  unfold spawnPieces. intros H Hwf.
  destruct (generateRandomPiece g d1) as [p1|] eqn:H1; [|done].
  destruct (generateRandomPiece g d2) as [p2|] eqn:H2; [|done].
  destruct (generateRandomPiece g d3) as [p3|] eqn:H3; [|done].
  simpl in H. injection H as <-. unfold wf_game.
  destruct (checkGameOver_frame (with_pieces g [Some p1; Some p2; Some p3]))
    as (_ & _ & _ & -> & ->). simpl.
  split; [done|].
  repeat apply Forall_cons_2; [..|apply Forall_nil_2];
    intros piece [= <-]; by eapply generateRandomPiece_good.
Qed.

Lemma spawnPieces_runs d1 d2 d3 g :
  drawsOk d1 → drawsOk d2 → drawsOk d3 →
  ∃ g', spawnPieces d1 d2 d3 g = Some g'.
Proof.
  intros [p1 H1]%(generateRandomPiece_runs g)
         [p2 H2]%(generateRandomPiece_runs g)
         [p3 H3]%(generateRandomPiece_runs g).
  unfold spawnPieces. rewrite H1, H2, H3. simpl. eauto.
Qed.

Lemma rotateMatrix_good m clockwise m' :
  goodShape m → rotateMatrix m clockwise = Some m' → goodShape m'.
Proof.
  intros (Hrect & Hrows & Hcols) Hrun.
  destruct (rotateMatrix_cells m clockwise Hrect Hrows)
    as (m'' & Hrun' & Hdims & _).
  rewrite Hrun in Hrun'. injection Hrun' as <-.
  assert (length m' = cols0 m) as Hlen
    by by rewrite <- (length_fmap length), Hdims, length_replicate.
  assert (∀ i row, m' !! i = Some row → length row = length m) as Hrow.
  { intros i row Hi.
    assert ((length <$> m') !! i = Some (length row)) as Hrow
      by by rewrite list_lookup_fmap, Hi.
    rewrite Hdims in Hrow. by apply lookup_replicate in Hrow as [-> _]. }
  assert (cols0 m' = length m) as Hcols'.
  { destruct (lookup_lt_is_Some_2 m' 0%nat) as [row0 Hrow0]; [lia|].
    unfold cols0. rewrite Hrow0. simpl. by eapply Hrow. }
  split; [|split]; [|lia..].
  apply Forall_forall. intros row (i & Hi)%list_elem_of_lookup_1.
  rewrite Hcols'. by eapply Hrow.
Qed.

Lemma rotateAllPieces_wf clockwise g g' :
  rotateAllPieces clockwise g = Some g' → wf_game g → wf_game g'.
Proof.
  intros Hrun [Hgrid Htray]. split.
  - by apply rotateAllPieces_frame in Hrun as (_ & _ & _ & ->).
  - apply rotateAllPieces_slots in Hrun.
    induction Hrun as [|slot slot' tray tray' Hslot _ IH];
      [apply Forall_nil_2|].
    apply Forall_cons in Htray as [Hhead Htail].
    apply Forall_cons_2; [|by apply IH].
    intros piece' ->. destruct slot as [piece|]; [|done].
    destruct Hslot as [_ Hrot]. eapply rotateMatrix_good; [|done]. auto.
Qed.

Lemma rotateAllPieces_runs clockwise g :
  wf_game g → ∃ g', rotateAllPieces clockwise g = Some g'.
Proof.
  intros [_ Htray]. unfold rotateAllPieces.
  destruct (mapM (rotatePiece clockwise) (activePieces g)) as [pieces|] eqn:Hmap;
    [simpl; eauto|].
  assert (is_Some (mapM (rotatePiece clockwise) (activePieces g))) as [? Hsome];
    [|congruence].
  apply mapM_is_Some. eapply Forall_impl; [exact Htray|].
  intros [piece|] Hgood; simpl; [|eauto].
  destruct (Hgood piece eq_refl) as (Hrect & Hrows & _).
  destruct (rotateMatrix_cells (shape piece) clockwise Hrect Hrows)
    as (m' & -> & _). simpl. eauto.
Qed.

Lemma checkForLines_wf g g' :
  checkForLines g = Some g' → wf_grid (grid g) → wf_grid (grid g').
Proof.
  unfold checkForLines. case_match; [|by intros [= <-]].
  intros Hclear%clearLines_grid. revert Hclear. unfold clearCells.
  apply forEach_preserves. intros key t t' Hwrite. by eapply write2_wf.
Qed.

Lemma placePiece_wf col row piece g g' :
  placePiece col row piece g = Some g' → wf_grid (grid g) →
  wf_grid (grid g').
Proof.
  unfold placePiece. intros H Hwf.
  destruct (fillCells _ _ _ _) as [placed|] eqn:Hfill; [|done]. simpl in H.
  apply checkForLines_wf in H; [done|]. simpl. by eapply fillCells_wf.
Qed.

Lemma onUp_wf index col row d1 d2 d3 g g' :
  onUp index col row d1 d2 d3 g = Some g' → wf_game g → wf_game g'.
Proof.
  unfold onUp, tryPlacePiece. intros H Hwf. pose proof Hwf as [Hgrid Htray].
  destruct (activePieces g !! index) as [[piece|]|];
    [|by injection H as <-..].
  destruct (isValidPlacement _ _ _ _); simpl in H; [|by injection H as <-].
  destruct (placePiece col row piece g) as [g1|] eqn:Hplace; [|done].
  simpl in H.
  pose proof (placePiece_wf _ _ _ _ _ Hplace Hgrid) as Hgrid1.
  apply placePiece_numbers in Hplace as [Htray1 _].
  match type of H with
  | (if ?b then _ else _) = _ => destruct b
  end.
  - by apply spawnPieces_wf in H.
  - injection H as <-. unfold wf_game.
    destruct (checkGameOver_frame
      (with_pieces g1 (<[index:=None]> (activePieces g1))))
      as (_ & _ & _ & -> & ->). simpl.
    split; [done|]. rewrite Htray1.
    destruct (decide (index < length (activePieces g))%nat).
    + by apply Forall_insert.
    + rewrite list_insert_ge by lia. done.
Qed.

Lemma restartGame_wf d1 d2 d3 g g' :
  restartGame d1 d2 d3 g = Some g' → wf_game g'.
Proof.
  unfold restartGame. intros H. eapply spawnPieces_wf; [done|].
  fields. rewrite updateScore_grid. simpl.
  split; [reflexivity | repeat constructor].
Qed.

(** Every state of a session has an 8x8 grid and good shapes on its tray:
    the hypotheses of the statements above hold all along. *)
Lemma reachable_wf g : reachable g → wf_game g.
Proof.
  induction 1 as [stored d1 d2 d3 g Hnew | g op g' _ IH Hstep].
  - unfold newGame in Hnew. eapply spawnPieces_wf; [done|].
    fields. rewrite updateScore_grid. simpl.
    split; [reflexivity | repeat constructor].
  - destruct op as [index col row d1 d2 d3 | clockwise | d1 d2 d3];
      simpl in Hstep.
    + by eapply onUp_wf.
    + by eapply rotateAllPieces_wf.
    + by eapply restartGame_wf.
Qed.

(** No operation raises on such a state: [None] is never met in a
    session whose draws are doubles of [0,1). *)
Lemma step_runs g op : wf_game g → opOk op → ∃ g', step g op = Some g'.
Proof.
  intros Hwf Hop. pose proof Hwf as [Hgrid Htray].
  destruct op as [index col row d1 d2 d3 | clockwise | d1 d2 d3]; simpl in *.
  - destruct Hop as (Hd1 & Hd2 & Hd3). unfold onUp, tryPlacePiece.
    destruct (activePieces g !! index) as [[piece|]|] eqn:Hslot; [|eauto..].
    destruct (isValidPlacement _ _ _ _) eqn:Hvalid; simpl; [|eauto].
    rewrite Forall_forall in Htray.
    destruct (Htray (Some piece)) with piece as (Hrect & _);
      [by eapply list_elem_of_lookup_2 | done |].
    destruct (placePiece_runs g col row piece Hgrid Hrect Hvalid)
      as (placed & g1 & _ & _ & -> & _). simpl.
    case_match; [by apply spawnPieces_runs | eauto].
  - by apply rotateAllPieces_runs.
  - destruct Hop as (Hd1 & Hd2 & Hd3). by apply spawnPieces_runs.
Qed.

(** ** The grid on screen *)

Lemma renderGrid_cells : renderGrid = cellOfIndex <$> seq 0 64.
Proof. reflexivity. Qed.

Lemma renderGrid_lookup idx :
  (idx < 64)%nat → renderGrid !! idx = Some (cellOfIndex idx).
Proof.
  intros Hidx. rewrite renderGrid_cells, list_lookup_fmap.
  by rewrite lookup_seq_lt.
Qed.

Lemma cellOfIndex_row_col r c :
  (c < GRID_SIZE)%nat → cellOfIndex (r * GRID_SIZE + c) = (r, c).
Proof.
  intros Hc. unfold cellOfIndex, GRID_SIZE in *. f_equal.
  - rewrite Nat.div_add_l by lia. rewrite Nat.div_small by lia. lia.
  - rewrite Nat.add_comm, Nat.Div0.mod_add. by apply Nat.mod_small.
Qed.

(** X1. [renderGrid] lays out 64 cells, row after row; the index
    [r * 8 + c] that [placePiece], [showPreview] and [clearLines] use for a
    target inside the grid finds the cell whose data set is (r,c), and the
    row and column [clearPreviews] computes back from an index are those of
    the cell at that index. *)
Theorem renderGrid_index :
  length renderGrid = 64%nat ∧
  (∀ idx, (idx < 64)%nat → renderGrid !! idx = Some (cellOfIndex idx)) ∧
  (∀ idx, (64 ≤ idx)%nat → renderGrid !! idx = None) ∧
  (∀ r c : Z, 0 ≤ r < 8 → 0 ≤ c < 8 →
     childAt (cellIndex r c) = Some (Z.to_nat r, Z.to_nat c)).
Proof.
  split; [reflexivity|]. split; [apply renderGrid_lookup|]. split.
  - intros idx Hidx. apply lookup_ge_None. by vm_compute.
  - intros r c Hr Hc. unfold childAt, cellIndex, GRID_SIZE.
    change (Z.of_nat 8) with 8.
    destruct (0 <=? r * 8 + c) eqn:Hle; [|apply Z.leb_gt in Hle; lia].
    replace (Z.to_nat (r * 8 + c)) with (Z.to_nat r * GRID_SIZE + Z.to_nat c)%nat
      by (unfold GRID_SIZE; lia).
    rewrite renderGrid_lookup by (unfold GRID_SIZE; lia).
    rewrite cellOfIndex_row_col; [done | unfold GRID_SIZE; lia].
Qed.

Lemma renderGrid_index_witness : childAt (cellIndex 7 6) = Some (7%nat, 6%nat).
Proof.
  apply (proj2 (proj2 (proj2 renderGrid_index)) 7 6); lia.
Defined.

(** X2. When [clearLines] shows the floating text (some row or column is
    full), the index [showFloatingText] computes is that of a cell of the
    screen grid, so the lookup of the cell does not raise, and that cell is
    one of the cells just cleared. *)
Theorem floatingText_on_cleared_cell (gr : Grid) :
  (0 < length (rowsToClear gr) + length (colsToClear gr))%nat →
  ∃ idx cell,
    floatingTextTarget (rowsToClear gr) (colsToClear gr) = Some idx ∧
    renderGrid !! idx = Some cell ∧
    cell ∈ cellsToClear (rowsToClear gr) (colsToClear gr).
Proof.
  intros Hany. unfold floatingTextTarget.
  destruct (0 <? length (rowsToClear gr))%nat eqn:Hrows.
  - apply Nat.ltb_lt in Hrows.
    destruct (lookup_lt_is_Some_2 (rowsToClear gr)
      (length (rowsToClear gr) / 2)%nat) as [r Hr].
    { apply Nat.Div0.div_lt_upper_bound. lia. }
    rewrite Hr. simpl.
    assert (r ∈ rowsToClear gr) as Hin by by eapply list_elem_of_lookup_2.
    pose proof (proj1 (rowsToClear_elem gr r) Hin) as [Hlt _].
    exists (r * GRID_SIZE + 4)%nat, (r, 4%nat). split; [done|]. split.
    + rewrite renderGrid_lookup by (unfold GRID_SIZE in *; lia).
      rewrite cellOfIndex_row_col; [done | unfold GRID_SIZE; lia].
    + apply cellsToClear_elem. left. split; [done | unfold GRID_SIZE; lia].
  - apply Nat.ltb_ge in Hrows.
    destruct (lookup_lt_is_Some_2 (colsToClear gr)
      (length (colsToClear gr) / 2)%nat) as [c Hc].
    { apply Nat.Div0.div_lt_upper_bound. lia. }
    rewrite Hc. simpl.
    assert (c ∈ colsToClear gr) as Hin by by eapply list_elem_of_lookup_2.
    pose proof (proj1 (colsToClear_elem gr c) Hin) as [Hlt _].
    exists (4 * GRID_SIZE + c)%nat, (4%nat, c). split; [done|]. split.
    + rewrite renderGrid_lookup by (unfold GRID_SIZE in *; lia).
      rewrite cellOfIndex_row_col; [done | unfold GRID_SIZE in *; lia].
    + apply cellsToClear_elem. right. split; [done | unfold GRID_SIZE; lia].
Qed.

Lemma floatingText_on_cleared_cell_witness :
  ∃ idx cell,
    floatingTextTarget (rowsToClear (grid stuckGame))
                       (colsToClear (grid stuckGame)) = Some idx ∧
    renderGrid !! idx = Some cell ∧
    cell ∈ cellsToClear (rowsToClear (grid stuckGame))
                        (colsToClear (grid stuckGame)).
Proof.
  apply (floatingText_on_cleared_cell (grid stuckGame)). vm_compute. lia.
Defined.

(** ** What a placement writes *)

Lemma writeZ_at2 {A} (m : list (list A)) (r c : Z) v m' i j :
  writeZ m r c v = Some m' →
  at2 m' i j =
  if decide (i = Z.to_nat r ∧ j = Z.to_nat c) then Some v else at2 m i j.
Proof.
  intros (_ & _ & Hwrite)%writeZ_Some. by eapply write2_at2.
Qed.

(** The loops of [placePiece] on a validated placement: the targets of the
    occupied cells hold the colour, every cell either is as before or is
    such a target. *)
Lemma fillCells_cells col row piece (gr : Grid) :
  wf_grid gr → rectangular (shape piece) →
  isValidPlacement gr col row (Some piece) = true →
  ∃ placed, fillCells col row piece gr = Some placed ∧ wf_grid placed ∧
    (∀ r c, occupied (shape piece) r c →
       at2 placed (Z.to_nat (row + Z.of_nat r)) (Z.to_nat (col + Z.of_nat c))
       = Some (Some (color piece))) ∧
    (∀ i j, at2 placed i j = at2 gr i j ∨ covered piece col row i j).
Proof.
  intros Hwf Hrect Hvalid.
  pose proof (proj1 (isValidPlacement_cells gr col row piece Hrect) Hvalid)
    as Hcells.
  set (tgt := λ r c : nat,
    (Z.to_nat (row + Z.of_nat r), Z.to_nat (col + Z.of_nat c))).
  assert (∀ r c, occupied (shape piece) r c →
    covered piece col row (tgt r c).1 (tgt r c).2) as Hcov.
  { intros r c Hocc. destruct (Hcells r c Hocc) as (? & ? & _).
    exists r, c. simpl. split; [done|]. lia. }
  unfold fillCells.
  destruct (for__invariant (λ k t,
    wf_grid t ∧
    (∀ r c, (r < k)%nat → occupied (shape piece) r c →
       at2 t (tgt r c).1 (tgt r c).2 = Some (Some (color piece))) ∧
    (∀ i j, at2 t i j = at2 gr i j ∨ covered piece col row i j))
    (length (shape piece))
    (λ r gr0, for_ (cols0 (shape piece)) (λ c gr1,
       if bool_decide (at2 (shape piece) r c = Some 1)
       then writeZ gr1 (row + Z.of_nat r) (col + Z.of_nat c)
              (Some (color piece))
       else Some gr1) gr0) gr)
    as (placed & Hrun & Hplaced & Hdone & Hframe).
  { split; [done|]. split; [intros; lia | auto]. }
  { intros r t Hr (Ht & Hrows & Hfr).
    destruct (for__invariant (λ k u,
      wf_grid u ∧
      (∀ r' c, (r' < r)%nat → occupied (shape piece) r' c →
         at2 u (tgt r' c).1 (tgt r' c).2 = Some (Some (color piece))) ∧
      (∀ c, (c < k)%nat → occupied (shape piece) r c →
         at2 u (tgt r c).1 (tgt r c).2 = Some (Some (color piece))) ∧
      (∀ i j, at2 u i j = at2 gr i j ∨ covered piece col row i j))
      (cols0 (shape piece))
      (λ c gr1,
         if bool_decide (at2 (shape piece) r c = Some 1)
         then writeZ gr1 (row + Z.of_nat r) (col + Z.of_nat c)
                (Some (color piece))
         else Some gr1) t)
      as (u & Hrun & Hu & Hrows' & Hrow & Hfr').
    { split; [done|]. split; [done|]. split; [intros; lia | done]. }
    { intros c u Hc (Hu & Hrows' & Hrow & Hfr').
      case_bool_decide as Hocc.
      - destruct (Hcells r c Hocc) as (Hrow_in & Hcol_in & _).
        destruct (wf_grid_write2 u (Z.to_nat (row + Z.of_nat r))
          (Z.to_nat (col + Z.of_nat c)) (Some (color piece)) Hu)
          as [u' Hwrite]; [unfold GRID_SIZE; lia..|].
        assert (writeZ u (row + Z.of_nat r) (col + Z.of_nat c)
                  (Some (color piece)) = Some u') as HwriteZ.
        { apply writeZ_Some. split; [lia|]. split; [lia | done]. }
        exists u'. split; [done|].
        split; [by eapply write2_wf|].
        split; [|split].
        + intros r' c' Hr' Hocc'.
          rewrite (writeZ_at2 _ _ _ _ _ _ _ HwriteZ).
          case_decide; [done | by apply Hrows'].
        + intros c' Hc' Hocc'.
          rewrite (writeZ_at2 _ _ _ _ _ _ _ HwriteZ).
          case_decide; [done|].
          destruct (decide (c' = c)) as [->|Hne]; [simpl in *; tauto|].
          apply Hrow; [lia | done].
        + intros i j. rewrite (writeZ_at2 _ _ _ _ _ _ _ HwriteZ).
          case_decide as Heq; [|apply Hfr'].
          right. destruct Heq as [-> ->]. by apply (Hcov r c).
      - exists u. split; [done|]. split; [done|]. split; [done|].
        split; [|done].
        intros c' Hc' Hocc'.
        destruct (decide (c' = c)) as [->|Hne]; [done|].
        apply Hrow; [lia | done]. }
    exists u. split; [done|]. split; [done|]. split; [|done].
    intros r' c Hr' Hocc.
    destruct (decide (r' = r)) as [->|Hne].
    - apply Hrow; [|done]. by eapply at2_bounds.
    - apply Hrows'; [lia | done]. }
  exists placed. split; [done|]. split; [done|]. split; [|done].
  intros r c Hocc. apply (Hdone r c); [|done]. by eapply at2_bounds.
Qed.

(** X3. A validated placement runs the loops of [placePiece] to their end:
    every target of an occupied cell of the piece was empty and now holds
    the colour of the piece, and every other cell of the grid is as it
    was. *)
Theorem placePiece_fills (gr : Grid) (col row : Z) (piece : Piece) :
  wf_grid gr → rectangular (shape piece) →
  isValidPlacement gr col row (Some piece) = true →
  ∃ placed, fillCells col row piece gr = Some placed ∧
    ∀ i j,
      (covered piece col row i j →
         at2 gr i j = Some None ∧
         at2 placed i j = Some (Some (color piece))) ∧
      (¬ covered piece col row i j → at2 placed i j = at2 gr i j).
Proof.
  intros Hwf Hrect Hvalid.
  destruct (fillCells_cells col row piece gr Hwf Hrect Hvalid)
    as (placed & Hrun & _ & Hdone & Hframe).
  pose proof (proj1 (isValidPlacement_cells gr col row piece Hrect) Hvalid)
    as Hcells.
  exists placed. split; [done|]. intros i j. split.
  - intros (r & c & Hocc & Hi & Hj).
    destruct (Hcells r c Hocc) as (_ & _ & Hempty).
    specialize (Hdone r c Hocc).
    replace (Z.to_nat (row + Z.of_nat r)) with i in * by lia.
    replace (Z.to_nat (col + Z.of_nat c)) with j in * by lia.
    done.
  - intros Hout. by destruct (Hframe i j).
Qed.

Lemma placePiece_fills_witness :
  ∃ placed, fillCells 0 0 squarePiece (grid fourLinesGame) = Some placed ∧
            at2 placed 1 1 = Some (Some "#FF5733"%string) ∧
            at2 placed 0 2 = at2 (grid fourLinesGame) 0 2.
Proof.
  destruct (placePiece_fills (grid fourLinesGame) 0 0 squarePiece)
    as (placed & Hrun & Hcells).
  - split; [reflexivity | repeat constructor].
  - repeat constructor.
  - reflexivity.
  - exists placed. split; [done|]. split.
    + apply (Hcells 1%nat 1%nat). by exists 1%nat, 1%nat.
    + apply (Hcells 0%nat 2%nat). intros (r & c & Hocc & Hr & Hc).
      assert (r = 0%nat) as -> by lia. assert (c = 2%nat) as -> by lia.
      by vm_compute in Hocc.
Defined.

(** ** The grid after a line clear *)

(** The grid [checkForLines] leaves: the cells of the set are empty, the
    others as they were. *)
Lemma checkForLines_cells g g' :
  wf_grid (grid g) → checkForLines g = Some g' →
  wf_grid (grid g') ∧
  ∀ r c, at2 (grid g') r c =
         if decide ((r, c) ∈ cellsToClear (rowsToClear (grid g))
                                          (colsToClear (grid g)))
         then Some None else at2 (grid g) r c.
Proof.
  intros Hwf Hrun.
  destruct (checkForLines_grid g Hwf) as (g'' & Hrun' & Hclear & _).
  rewrite Hrun in Hrun'. injection Hrun' as <-.
  destruct (clearCells_spec
    (cellsToClear (rowsToClear (grid g)) (colsToClear (grid g))) (grid g) Hwf)
    as (gr & Hclear' & Hwf' & Hcells).
  { intros r c [[Hr Hc] | [Hc Hr]]%cellsToClear_elem; split; try done.
    - by apply rowsToClear_elem in Hr as [? _].
    - by apply colsToClear_elem in Hc as [? _]. }
  rewrite Hclear in Hclear'. by injection Hclear' as <-.
Qed.

Lemma filled_not_empty (gr : Grid) r c : filled gr r c → at2 gr r c ≠ Some None.
Proof. intros [co ->]. done. Qed.

Lemma checkForLines_noFullLine g g' :
  wf_grid (grid g) → checkForLines g = Some g' → noFullLine (grid g').
Proof.
  intros Hwf Hrun.
  destruct (checkForLines_cells g g' Hwf Hrun) as [Hwf' Hcells].
  assert (∀ r c, filled (grid g') r c →
    filled (grid g) r c ∧
    (r, c) ∉ cellsToClear (rowsToClear (grid g)) (colsToClear (grid g)))
    as Hkept.
  { intros r c Hfilled. pose proof (filled_not_empty _ _ _ Hfilled) as Hne.
    rewrite Hcells in Hne. unfold filled in Hfilled. rewrite Hcells in Hfilled.
    by case_decide. }
  split; apply elem_of_nil_inv.
  - intros r [Hr Hfull]%rowsToClear_elem.
    pose proof (proj1 (rowFull_spec (grid g') r Hwf' Hr) Hfull) as Hall.
    assert (r ∈ rowsToClear (grid g)) as Hin.
    { apply rowsToClear_elem. split; [done|].
      apply rowFull_spec; [done..|]. intros c Hc. by apply Hkept, Hall. }
    destruct (Hkept r 0%nat) as [_ Hout];
      [apply Hall; unfold GRID_SIZE; lia|].
    apply Hout, cellsToClear_elem. left. split; [done|].
    unfold GRID_SIZE; lia.
  - intros c [Hc Hfull]%colsToClear_elem.
    pose proof (proj1 (colFull_spec (grid g') c Hwf' Hc) Hfull) as Hall.
    assert (c ∈ colsToClear (grid g)) as Hin.
    { apply colsToClear_elem. split; [done|].
      apply colFull_spec; [done..|]. intros r Hr. by apply Hkept, Hall. }
    destruct (Hkept 0%nat c) as [_ Hout];
      [apply Hall; unfold GRID_SIZE; lia|].
    apply Hout, cellsToClear_elem. right. split; [done|].
    unfold GRID_SIZE; lia.
Qed.

(** A line clear only empties cells: a placement that validated on the
    grid validates on the cleared grid. *)
Lemma checkForLines_keeps_valid g g' col row piece :
  wf_grid (grid g) → rectangular (shape piece) →
  checkForLines g = Some g' →
  isValidPlacement (grid g) col row (Some piece) = true →
  isValidPlacement (grid g') col row (Some piece) = true.
Proof.
  intros Hwf Hrect Hrun Hvalid.
  destruct (checkForLines_cells g g' Hwf Hrun) as [_ Hcells].
  apply (isValidPlacement_cells _ _ _ _ Hrect).
  pose proof (proj1 (isValidPlacement_cells _ _ _ _ Hrect) Hvalid) as Hold.
  intros r c Hocc. destruct (Hold r c Hocc) as (? & ? & Hempty).
  split; [done|]. split; [done|].
  rewrite Hcells. by case_decide.
Qed.

(** ** The shapes of a session *)

Lemma existsb_seq (P : nat → Prop) `{∀ x, Decision (P x)} n :
  existsb (λ x, bool_decide (P x)) (seq 0 n) = true ↔
  ∃ x, (x < n)%nat ∧ P x.
Proof.
  rewrite existsb_exists. split.
  - intros (x & [_ Hx]%in_seq & HP%bool_decide_eq_true). eauto.
  - intros (x & Hx & HP). exists x. rewrite in_seq, bool_decide_eq_true.
    split; [lia | done].
Qed.

Lemma tightb_spec (m : Matrix) :
  tightb m = true ↔
  (∃ c, (c < cols0 m)%nat ∧ at2 m 0 c = Some 1) ∧
  (∃ c, (c < cols0 m)%nat ∧ at2 m (length m - 1) c = Some 1) ∧
  (∃ r, (r < length m)%nat ∧ at2 m r 0 = Some 1) ∧
  (∃ r, (r < length m)%nat ∧ at2 m r (cols0 m - 1) = Some 1).
Proof.
  unfold tightb. rewrite !andb_true_iff.
  rewrite (existsb_seq (λ c, at2 m 0 c = Some 1)).
  rewrite (existsb_seq (λ c, at2 m (length m - 1) c = Some 1)).
  rewrite (existsb_seq (λ r, at2 m r 0 = Some 1)).
  rewrite (existsb_seq (λ r, at2 m r (cols0 m - 1) = Some 1)).
  tauto.
Qed.

Lemma pools_tight :
  Forall (λ m, tightb m = true)
         (SMALL_BLOCKS ++ TETROMINOES ++ COMPLEX_SHAPES).
Proof.
  unfold SMALL_BLOCKS, TETROMINOES, COMPLEX_SHAPES. simpl.
  repeat (apply Forall_cons; split; [reflexivity|]).
  apply Forall_nil_2.
Qed.

Lemma generateRandomPiece_pool g d piece :
  generateRandomPiece g d = Some piece →
  shape piece ∈ SMALL_BLOCKS ++ TETROMINOES ++ COMPLEX_SHAPES ∧
  color piece ∈ COLORS.
Proof.
  unfold generateRandomPiece. intros H.
  destruct (pick (shapesPool _ _) _) as [sh|] eqn:Hsh; [|done].
  destruct (pick COLORS _) as [co|] eqn:Hco; [|done].
  simpl in H. injection H as <-. cbn [shape color].
  apply pick_elem in Hsh, Hco. split; [|done].
  rewrite !elem_of_app.
  unfold shapesPool in Hsh. repeat case_match; auto.
Qed.

Lemma generateRandomPiece_tight g d piece :
  generateRandomPiece g d = Some piece →
  goodShape (shape piece) ∧ tightb (shape piece) = true.
Proof.
  intros H. split; [by eapply generateRandomPiece_good|].
  apply generateRandomPiece_pool in H as [H _].
  pose proof pools_tight as Htight. rewrite Forall_forall in Htight. auto.
Qed.

(** A rotation of a good shape: the result is good, of the transposed
    size, and holds every cell at its target. *)
Lemma rotateMatrix_good_cells m clockwise m' :
  goodShape m → rotateMatrix m clockwise = Some m' →
  goodShape m' ∧ length m' = cols0 m ∧ cols0 m' = length m ∧
  ∀ r c, (r < length m)%nat → (c < cols0 m)%nat →
    at2 m' (rotateTarget clockwise (length m) (cols0 m) r c).1
           (rotateTarget clockwise (length m) (cols0 m) r c).2 =
    at2 m r c.
Proof.
  intros Hgood Hrun. pose proof Hgood as (Hrect & Hrows & Hcols).
  pose proof (rotateMatrix_good m clockwise m' Hgood Hrun)
    as Hgood'.
  destruct (rotateMatrix_cells m clockwise Hrect Hrows)
    as (m'' & Hrun' & Hdims & Hcells).
  rewrite Hrun in Hrun'. injection Hrun' as <-.
  assert (length m' = cols0 m) as Hlen
    by by rewrite <- (length_fmap length), Hdims, length_replicate.
  split; [done|]. split; [done|]. split; [|done].
  destruct (lookup_lt_is_Some_2 m' 0%nat) as [row0 Hrow0]; [lia|].
  unfold cols0 at 1. rewrite Hrow0. simpl.
  assert ((length <$> m') !! 0%nat = Some (length row0)) as Hrow
    by by rewrite list_lookup_fmap, Hrow0.
  rewrite Hdims in Hrow. by apply lookup_replicate in Hrow as [-> _].
Qed.

Lemma rotateMatrix_tight m clockwise m' :
  goodShape m → tightb m = true → rotateMatrix m clockwise = Some m' →
  tightb m' = true.
Proof.
  intros Hgood Htight Hrun.
  destruct (rotateMatrix_good_cells m clockwise m' Hgood Hrun)
    as (_ & Hlen & Hcols & Hcells).
  destruct Hgood as (_ & Hrows & Hcols0).
  apply tightb_spec in Htight
    as ((c0 & Hc0 & Hfirst) & (c1 & Hc1 & Hlast) &
        (r0 & Hr0 & Hleft) & (r1 & Hr1 & Hright)).
  apply tightb_spec. rewrite Hlen, Hcols.
  destruct clockwise; simpl in Hcells.
  - split; [|split; [|split]].
    + exists (length m - 1 - r0)%nat. split; [lia|].
      rewrite <- Hleft. apply (Hcells r0 0%nat); lia.
    + exists (length m - 1 - r1)%nat. split; [lia|].
      rewrite <- Hright. apply (Hcells r1 (cols0 m - 1)%nat); lia.
    + exists c1. split; [done|]. rewrite <- Hlast.
      specialize (Hcells (length m - 1)%nat c1).
      replace (length m - 1 - (length m - 1))%nat with 0%nat in Hcells by lia.
      apply Hcells; lia.
    + exists c0. split; [done|]. rewrite <- Hfirst.
      specialize (Hcells 0%nat c0).
      replace (length m - 1 - 0)%nat with (length m - 1)%nat in Hcells by lia.
      apply Hcells; lia.
  - split; [|split; [|split]].
    + exists r1. split; [done|]. rewrite <- Hright.
      specialize (Hcells r1 (cols0 m - 1)%nat).
      replace (cols0 m - 1 - (cols0 m - 1))%nat with 0%nat in Hcells by lia.
      apply Hcells; lia.
    + exists r0. split; [done|]. rewrite <- Hleft.
      specialize (Hcells r0 0%nat).
      replace (cols0 m - 1 - 0)%nat with (cols0 m - 1)%nat in Hcells by lia.
      apply Hcells; lia.
    + exists (cols0 m - 1 - c0)%nat. split; [lia|].
      rewrite <- Hfirst. apply (Hcells 0%nat c0); lia.
    + exists (cols0 m - 1 - c1)%nat. split; [lia|].
      rewrite <- Hlast. apply (Hcells (length m - 1)%nat c1); lia.
Qed.

(** A tight shape validates at anchors of the grid only. *)
Lemma tight_valid_anchor (gr : Grid) col row piece :
  rectangular (shape piece) → tightb (shape piece) = true →
  isValidPlacement gr col row (Some piece) = true →
  0 ≤ row < 8 ∧ 0 ≤ col < 8.
Proof.
  intros Hrect Htight Hvalid.
  pose proof (proj1 (isValidPlacement_cells gr col row piece Hrect) Hvalid)
    as Hcells.
  apply tightb_spec in Htight as ((c0 & _ & Hfirst) & _ & (r0 & _ & Hleft) & _).
  destruct (Hcells 0%nat c0 Hfirst) as (Hrow & _ & _).
  destruct (Hcells r0 0%nat Hleft) as (_ & Hcol & _).
  lia.
Qed.

(** ** The states of a session *)

Lemma fitsSomewhere_frame g g' :
  grid g' = grid g → activePieces g' = activePieces g →
  fitsSomewhere g' → fitsSomewhere g.
Proof. unfold fitsSomewhere. by intros -> ->. Qed.

(** Every operation ends on [checkGameOver]: the state it leaves shows the
    game over if no piece fits. *)
Lemma checkGameOver_session g :
  wf_grid (grid g) → wf_tray (activePieces g) → noFullLine (grid g) →
  session (checkGameOver g).
Proof.
  intros Hgrid Htray Hfull.
  destruct (checkGameOver_frame g) as (Hs & _ & _ & Hg & Hp).
  unfold session. rewrite Hg, Hp.
  split; [done|]. split; [done|]. split; [done|].
  intros Hstuck.
  assert (¬ fitsSomewhere g) as Hstuck'.
  { intros Hfit. apply Hstuck. by eapply fitsSomewhere_frame. }
  assert (canPlaceAny g = false) as Hcan.
  { destruct (canPlaceAny g) eqn:Hcan; [|done].
    by apply canPlaceAny_spec in Hcan. }
  assert (existsb (λ p, bool_decide (p ≠ None)) (activePieces g) = true)
    as Hsome.
  { apply someUnused_spec. by destruct Htray as (_ & ? & _). }
  unfold checkGameOver. by rewrite Hcan, Hsome.
Qed.

Lemma spawnPieces_inv d1 d2 d3 g g' :
  spawnPieces d1 d2 d3 g = Some g' →
  ∃ p1 p2 p3,
    generateRandomPiece g d1 = Some p1 ∧
    generateRandomPiece g d2 = Some p2 ∧
    generateRandomPiece g d3 = Some p3 ∧
    g' = checkGameOver (with_pieces g [Some p1; Some p2; Some p3]).
Proof.
  unfold spawnPieces. intros H.
  destruct (generateRandomPiece g d1) as [p1|]; [|done].
  destruct (generateRandomPiece g d2) as [p2|]; [|done].
  destruct (generateRandomPiece g d3) as [p3|]; [|done].
  simpl in H. injection H as <-. by exists p1, p2, p3.
Qed.

Lemma spawnPieces_session d1 d2 d3 g g' :
  spawnPieces d1 d2 d3 g = Some g' →
  wf_grid (grid g) → noFullLine (grid g) → session g'.
Proof.
  intros (p1 & p2 & p3 & H1 & H2 & H3 & ->)%spawnPieces_inv Hgrid Hfull.
  apply checkGameOver_session; [done| |done]. simpl.
  split; [done|]. split; [by exists 0%nat, p1|].
  repeat apply Forall_cons_2; [..|apply Forall_nil_2];
    intros piece [= <-]; by eapply generateRandomPiece_tight.
Qed.

(** The ways [onUp] ends: nothing was dragged or the placement did not
    validate, and the state is untouched; or the piece was placed and
    taken off the tray, which is then refilled if it is empty and checked
    for the game over. *)
Lemma onUp_cases index col row d1 d2 d3 g g' :
  onUp index col row d1 d2 d3 g = Some g' →
  (g' = g ∧
   ∀ piece, activePieces g !! index = Some (Some piece) →
            isValidPlacement (grid g) col row (Some piece) = false) ∨
  ∃ piece g1,
    activePieces g !! index = Some (Some piece) ∧
    isValidPlacement (grid g) col row (Some piece) = true ∧
    placePiece col row piece g = Some g1 ∧
    ((Forall (λ slot, slot = None) (<[index:=None]> (activePieces g)) ∧
      spawnPieces d1 d2 d3
        (with_pieces g1 (<[index:=None]> (activePieces g))) = Some g') ∨
     (¬ Forall (λ slot, slot = None) (<[index:=None]> (activePieces g)) ∧
      g' = checkGameOver
             (with_pieces g1 (<[index:=None]> (activePieces g))))).
Proof.
  unfold onUp, tryPlacePiece. intros H.
  destruct (activePieces g !! index) as [[piece|]|] eqn:Hslot;
    [|injection H as <-; left; split; [done | intros ? [=]]..].
  destruct (isValidPlacement _ _ _ _) eqn:Hvalid; simpl in H.
  2:{ injection H as <-. left. split; [done|]. by intros ? [= <-]. }
  destruct (placePiece col row piece g) as [g1|] eqn:Hplace; [|done].
  simpl in H. right. exists piece, g1.
  pose proof (placePiece_numbers _ _ _ _ _ Hplace) as [Htray _].
  rewrite Htray in H.
  split; [done|]. split; [done|]. split; [done|].
  match type of H with
  | (if ?b then _ else _) = _ => destruct b eqn:Hall
  end.
  - left. split; [|done]. apply Forall_forall. intros slot Hin.
    rewrite forallb_forall in Hall.
    by apply list_elem_of_In, Hall, bool_decide_eq_true in Hin.
  - right. injection H as <-. split; [|done]. intros Hnone.
    assert (forallb (λ p, bool_decide (p = None))
              (<[index:=None]> (activePieces g)) = true); [|congruence].
    apply forallb_forall. intros slot Hin%list_elem_of_In.
    rewrite Forall_forall in Hnone. by apply bool_decide_eq_true, Hnone.
Qed.

Lemma placePiece_noFullLine col row piece g g' :
  wf_grid (grid g) → placePiece col row piece g = Some g' →
  wf_grid (grid g') ∧ noFullLine (grid g').
Proof.
  intros Hwf Hplace. split; [by eapply placePiece_wf|].
  unfold placePiece in Hplace.
  destruct (fillCells _ _ _ _) as [placed|] eqn:Hfill; [|done].
  simpl in Hplace. eapply checkForLines_noFullLine; [|done]. simpl.
  by eapply fillCells_wf.
Qed.

Lemma onUp_session index col row d1 d2 d3 g g' :
  onUp index col row d1 d2 d3 g = Some g' → session g → session g'.
Proof.
  intros [[-> _] | (piece & g1 & Hslot & Hvalid & Hplace & Hend)]%onUp_cases
    Hsession; [done|].
  destruct Hsession as (Hgrid & (Hlen & _ & Hshapes) & _ & _).
  destruct (placePiece_noFullLine _ _ _ _ _ Hgrid Hplace) as [Hgrid1 Hfull1].
  destruct Hend as [[_ Hspawn] | [Hsome ->]].
  - by eapply spawnPieces_session.
  - apply checkGameOver_session; [done| |done]. simpl.
    split; [by rewrite length_insert|]. split.
    + apply not_Forall_Exists in Hsome; [|apply _].
      apply Exists_exists in Hsome as ([piece'|] & Hin & Hne);
        [|by destruct Hne].
      apply list_elem_of_lookup_1 in Hin as [i Hi]. eauto.
    + apply Forall_insert; [done | done].
Qed.

Lemma rotateAllPieces_inv clockwise g g' :
  rotateAllPieces clockwise g = Some g' →
  ∃ pieces, Forall2 (rotatedSlot clockwise) (activePieces g) pieces ∧
            g' = checkGameOver (with_pieces g pieces).
Proof.
  intros Hrun. pose proof (rotateAllPieces_slots _ _ _ Hrun) as Hslots.
  unfold rotateAllPieces in Hrun.
  destruct (mapM _ _) as [pieces|]; [|done]. simpl in Hrun.
  injection Hrun as <-. exists pieces. split; [|done].
  destruct (checkGameOver_frame (with_pieces g pieces))
    as (_ & _ & _ & _ & Htray).
  by rewrite Htray in Hslots.
Qed.

Lemma rotateAllPieces_session clockwise g g' :
  rotateAllPieces clockwise g = Some g' → session g → session g'.
Proof.
  intros (pieces & Hslots & ->)%rotateAllPieces_inv
    (Hgrid & (Hlen & (i & piece & Hi) & Hshapes) & Hfull & _).
  apply checkGameOver_session; [done| |done]. simpl.
  split; [by rewrite <- (Forall2_length _ _ _ Hslots)|]. split.
  - destruct (Forall2_lookup_l _ _ _ _ _ Hslots Hi) as ([piece'|] & Hi' & Hrot);
      [eauto | done].
  - rewrite Forall_forall in Hshapes.
    apply Forall_forall. intros slot' (j & Hj)%list_elem_of_lookup_1 piece' ->.
    destruct (Forall2_lookup_r _ _ _ _ _ Hslots Hj) as ([p|] & Hp & Hrot);
      [|done].
    destruct Hrot as [_ Hrot].
    destruct (Hshapes (Some p)) with p as [Hgood Htight];
      [by eapply list_elem_of_lookup_2 | done |].
    split; [by eapply rotateMatrix_good | by eapply rotateMatrix_tight].
Qed.

Lemma emptyGrid_session :
  wf_grid emptyGrid ∧ noFullLine emptyGrid.
Proof. split; [split; [reflexivity | repeat constructor] | by split]. Qed.

Lemma reachable_session g : reachable g → session g.
Proof.
  induction 1 as [stored d1 d2 d3 g Hnew | g op g' _ IH Hstep].
  - unfold newGame in Hnew.
    eapply spawnPieces_session; [done | |]; fields;
      rewrite updateScore_grid; apply emptyGrid_session.
  - destruct op as [index col row d1 d2 d3 | clockwise | d1 d2 d3];
      simpl in Hstep.
    + by eapply onUp_session.
    + by eapply rotateAllPieces_session.
    + unfold restartGame in Hstep.
      eapply spawnPieces_session; [done | |]; fields;
        rewrite updateScore_grid; apply emptyGrid_session.
Qed.





(** X6. Whenever a state of a session has no piece of the tray that
    validates at any of the 64 anchors, the last thing shown is the game
    over with the current score: no stuck state goes unnoticed. *)
Theorem game_over_shown_when_stuck (g : Game) :
  reachable g → ¬ fitsSomewhere g →
  head (trace g) = Some (GameOverShown (score g)).
Proof. by intros (_ & _ & _ & Hshown)%reachable_session. Qed.

(** X7. A piece of a session validates at anchors of the grid only, so the
    64 anchors [checkGameOver] tries are all there are; and once no piece
    fits, a drop at any anchor whatever leaves the state as it is. *)
Theorem stuck_drop_changes_nothing (g : Game) :
  reachable g →
  (∀ i piece col row,
     activePieces g !! i = Some (Some piece) →
     isValidPlacement (grid g) col row (Some piece) = true →
     0 ≤ row < 8 ∧ 0 ≤ col < 8 ∧ fitsSomewhere g) ∧
  (¬ fitsSomewhere g →
   ∀ index col row d1 d2 d3, onUp index col row d1 d2 d3 g = Some g).
Proof.
  intros (_ & (_ & _ & Hshapes) & _ & _)%reachable_session.
  rewrite Forall_forall in Hshapes.
  assert (∀ i piece col row,
     activePieces g !! i = Some (Some piece) →
     isValidPlacement (grid g) col row (Some piece) = true →
     0 ≤ row < 8 ∧ 0 ≤ col < 8 ∧ fitsSomewhere g) as Hscan.
  { intros i piece col row Hi Hvalid.
    destruct (Hshapes (Some piece)) with piece as [(Hrect & _) Htight];
      [by eapply list_elem_of_lookup_2 | done |].
    destruct (tight_valid_anchor _ _ _ _ Hrect Htight Hvalid) as [Hrow Hcol].
    split; [done|]. split; [done|].
    exists i, piece, (Z.to_nat row), (Z.to_nat col).
    split; [done|]. split; [lia|]. split; [lia|].
    by rewrite !Z2Nat.id by lia. }
  split; [done|].
  intros Hstuck index col row d1 d2 d3. unfold onUp, tryPlacePiece.
  destruct (activePieces g !! index) as [[piece|]|] eqn:Hslot; [|done..].
  destruct (isValidPlacement _ _ _ _) eqn:Hvalid; [|done].
  destruct Hstuck. by eapply Hscan.
Qed.

(** X8. No operation of a session raises: on every state reached from
    [new Game()], a drop, a rotation and a restart whose draws are doubles
    of [0,1) run to their end. *)
Theorem session_never_raises (g : Game) (op : Op) :
  reachable g → opOk op → ∃ g', step g op = Some g'.
Proof. intros Hwf%reachable_wf Hop. by apply step_runs. Qed.

Lemma session_never_raises_witness :
  ∃ g', step firstGame
          (Restart zeroDraws zeroDraws (mkDraws 0 sliceEdgeDraw sliceEdgeDraw))
        = Some g'.
Proof.
  apply (session_never_raises firstGame
    (Restart zeroDraws zeroDraws (mkDraws 0 sliceEdgeDraw sliceEdgeDraw))).
  - exact (reachable_new None zeroDraws zeroDraws zeroDraws firstGame eq_refl).
  - repeat split; vm_compute; congruence.
Defined.

Lemma reachable_play ops g g' :
  reachable g → play ops g = Some g' → reachable g'.
Proof.
  intros Hg Hplay. revert Hplay Hg. unfold play.
  apply forEach_preserves. intros op t t' Hstep Ht.
  by eapply reachable_step.
Qed.

Lemma checkerGame_reachable : reachable checkerGame.
Proof.
  apply (reachable_play checkerOps firstGame).
  - exact (reachable_new None zeroDraws zeroDraws zeroDraws firstGame eq_refl).
  - by vm_compute.
Qed.

Lemma checkerGame_stuck : ¬ fitsSomewhere checkerGame.
Proof. intros Hfit%canPlaceAny_spec. by vm_compute in Hfit. Qed.

Lemma game_over_shown_when_stuck_witness :
  head (trace checkerGame) = Some (GameOverShown (score checkerGame)).
Proof.
  apply (game_over_shown_when_stuck checkerGame).
  - apply checkerGame_reachable.
  - apply checkerGame_stuck.
Defined.

Lemma stuck_drop_changes_nothing_witness :
  onUp 2 0 0 zeroDraws zeroDraws zeroDraws checkerGame = Some checkerGame.
Proof.
  apply (proj2 (stuck_drop_changes_nothing checkerGame checkerGame_reachable)
               checkerGame_stuck).
Defined.

(** ** A fresh tray on an empty grid *)

Lemma pools_fit_emptyGrid :
  Forall (λ m, ∀ co,
            isValidPlacement emptyGrid 0 0 (Some (mkPiece m co)) = true)
         (SMALL_BLOCKS ++ TETROMINOES ++ COMPLEX_SHAPES).
Proof.
  unfold SMALL_BLOCKS, TETROMINOES, COMPLEX_SHAPES. simpl.
  repeat (apply Forall_cons; split; [intros co; reflexivity|]).
  apply Forall_nil_2.
Qed.

(** On an empty grid [spawnPieces] deals three pieces that fit, and its
    game-over check shows nothing. *)
Lemma spawnPieces_emptyGrid d1 d2 d3 g g' :
  grid g = emptyGrid → spawnPieces d1 d2 d3 g = Some g' →
  fitsSomewhere g' ∧
  ∃ p1 p2 p3, g' = with_pieces g [Some p1; Some p2; Some p3].
Proof.
  intros Hgrid (p1 & p2 & p3 & H1 & _ & _ & ->)%spawnPieces_inv.
  assert (fitsSomewhere (with_pieces g [Some p1; Some p2; Some p3])) as Hfit.
  { exists 0%nat, p1, 0%nat, 0%nat. split; [done|].
    split; [lia|]. split; [lia|]. simpl. rewrite Hgrid.
    apply generateRandomPiece_pool in H1 as [H1 _].
    pose proof pools_fit_emptyGrid as Hfits.
    rewrite Forall_forall in Hfits.
    specialize (Hfits _ H1 (color p1)). by destruct p1. }
  assert (checkGameOver (with_pieces g [Some p1; Some p2; Some p3]) =
          with_pieces g [Some p1; Some p2; Some p3]) as ->.
  { unfold checkGameOver.
    by rewrite (proj2 (canPlaceAny_spec _) Hfit). }
  split; [done|]. by exists p1, p2, p3.
Qed.

(** X9. [restartGame], whatever the state it is called on, leaves an empty
    grid, score 0, level 1, the high score as it was (or 0 if it was
    negative) and a tray of three fresh pieces of which one fits; the last
    thing it does to the modal is to hide it.  [new Game()] starts in the
    same way. *)
Theorem restartGame_fresh :
  (∀ d1 d2 d3 g g', restartGame d1 d2 d3 g = Some g' →
     grid g' = emptyGrid ∧ score g' = 0 ∧ level g' = 1 ∧
     highScore g' = Z.max (highScore g) 0 ∧
     (∃ p1 p2 p3, activePieces g' = [Some p1; Some p2; Some p3]) ∧
     fitsSomewhere g' ∧
     head (trace g') = Some ModalHidden) ∧
  (∀ stored d1 d2 d3 g, newGame stored d1 d2 d3 = Some g →
     grid g = emptyGrid ∧ score g = 0 ∧ level g = 1 ∧
     highScore g = Z.max (default 0 stored) 0 ∧
     (∃ p1 p2 p3, activePieces g = [Some p1; Some p2; Some p3]) ∧
     fitsSomewhere g ∧
     head (trace g) = Some (HighScoreShown (highScore g))).
Proof.
  split.
  - intros d1 d2 d3 g g' Hrun.
    destruct (restartGame_numbers _ _ _ _ _ Hrun) as (Hs & Hl & Hh).
    unfold restartGame in Hrun.
    apply spawnPieces_emptyGrid in Hrun
      as (Hfit & p1 & p2 & p3 & Hg'); [|by fields; rewrite updateScore_grid].
    split; [|split; [done|split; [done|split; [done|split; [|split; [done|]]]]]].
    + rewrite Hg'. fields. by rewrite updateScore_grid.
    + rewrite Hg'. simpl. eauto.
    + by rewrite Hg'.
  - intros stored d1 d2 d3 g Hrun.
    destruct (newGame_numbers _ _ _ _ _ Hrun) as (Hs & Hl).
    unfold newGame in Hrun.
    apply spawnPieces_emptyGrid in Hrun
      as (Hfit & p1 & p2 & p3 & Hg'); [|by fields; rewrite updateScore_grid].
    split; [|split; [done|split; [done|split; [|split; [|split; [done|]]]]]].
    + rewrite Hg'. fields. by rewrite updateScore_grid.
    + rewrite Hg'. fields. by rewrite updateScore_highScore.
    + rewrite Hg'. simpl. eauto.
    + by rewrite Hg'.
Qed.

Lemma restartGame_fresh_witness : fitsSomewhere restartedGame.
Proof.
  apply (proj1 restartGame_fresh zeroDraws zeroDraws zeroDraws
               checkerGame restartedGame).
  by vm_compute.
Defined.

(** ** Rotations undo each other *)

Lemma rows_dims {A} (m : list (list A)) n :
  Forall (λ row, length row = n) m → length <$> m = replicate (length m) n.
Proof.
  induction 1 as [|row m' Hrow _ IH]; [done|]. csimpl. by rewrite Hrow, IH.
Qed.

Lemma goodShape_dims m :
  goodShape m → length <$> m = replicate (length m) (cols0 m).
Proof. intros (Hrect & _). by apply rows_dims. Qed.

(** Two matrices of the same size with the same cells are equal. *)
Lemma matrix_ext {A} (m m' : list (list A)) R C :
  length <$> m = replicate R C → length <$> m' = replicate R C →
  (∀ r c, (r < R)%nat → (c < C)%nat → at2 m r c = at2 m' r c) →
  m = m'.
Proof.
  intros Hm Hm' Hcells.
  assert (∀ (x : list (list A)) r row, length <$> x = replicate R C →
            x !! r = Some row → (r < R)%nat ∧ length row = C) as Hrow.
  { intros x r row Hx Hr.
    assert ((length <$> x) !! r = Some (length row)) as Hlen
      by by rewrite list_lookup_fmap, Hr.
    rewrite Hx in Hlen. by apply lookup_replicate in Hlen as [-> ?]. }
  assert (∀ x : list (list A), length <$> x = replicate R C → length x = R)
    as Hlen.
  { intros x Hx. by rewrite <- (length_fmap length), Hx, length_replicate. }
  apply list_eq. intros r.
  destruct (m !! r) as [row|] eqn:Hr.
  - destruct (Hrow m r row Hm Hr) as [HrR Hrowlen].
    destruct (lookup_lt_is_Some_2 m' r) as [row' Hr'];
      [rewrite (Hlen m' Hm'); lia|].
    destruct (Hrow m' r row' Hm' Hr') as [_ Hrowlen'].
    rewrite Hr'. f_equal. apply list_eq. intros c.
    destruct (decide (c < C)%nat) as [Hc|Hc].
    + specialize (Hcells r c HrR Hc). unfold at2 in Hcells.
      by rewrite Hr, Hr' in Hcells.
    + rewrite !lookup_ge_None_2; [done | lia | lia].
  - apply lookup_ge_None in Hr. symmetry. apply lookup_ge_None.
    rewrite (Hlen m Hm) in Hr. by rewrite (Hlen m' Hm').
Qed.

Lemma rotateMatrix_runs m clockwise :
  goodShape m → ∃ m', rotateMatrix m clockwise = Some m'.
Proof.
  intros (Hrect & Hrows & _).
  destruct (rotateMatrix_cells m clockwise Hrect Hrows) as (m' & Hrun & _).
  eauto.
Qed.

(** A rotation back gives the matrix back. *)
Lemma rotateMatrix_back m clockwise m1 :
  goodShape m → rotateMatrix m clockwise = Some m1 →
  rotateMatrix m1 (negb clockwise) = Some m.
Proof.
  intros Hgood Hrun.
  destruct (rotateMatrix_good_cells m clockwise m1 Hgood Hrun)
    as (Hgood1 & Hlen1 & Hcols1 & Hcells1).
  destruct (rotateMatrix_runs m1 (negb clockwise) Hgood1) as [m2 Hrun2].
  destruct (rotateMatrix_good_cells m1 (negb clockwise) m2 Hgood1 Hrun2)
    as (Hgood2 & Hlen2 & Hcols2 & Hcells2).
  rewrite Hrun2. f_equal.
  apply (matrix_ext m2 m (length m) (cols0 m)).
  - rewrite (goodShape_dims m2 Hgood2). congruence.
  - by apply goodShape_dims.
  - intros r c Hr Hc. rewrite <- (Hcells1 r c Hr Hc).
    destruct (rotateTarget_range clockwise (length m) (cols0 m) r c Hr Hc)
      as [Hi Hj].
    rewrite <- Hcells2 by lia. rewrite Hlen1, Hcols1.
    destruct clockwise; simpl in *; f_equal; lia.
Qed.

(** Two rotations the same way turn the matrix upside down, whichever the
    way. *)
Lemma rotateMatrix_half_turn m clockwise m1 m2 :
  goodShape m → rotateMatrix m clockwise = Some m1 →
  rotateMatrix m1 clockwise = Some m2 →
  goodShape m2 ∧ length m2 = length m ∧ cols0 m2 = cols0 m ∧
  ∀ r c, (r < length m)%nat → (c < cols0 m)%nat →
    at2 m2 (length m - 1 - r) (cols0 m - 1 - c) = at2 m r c.
Proof.
  intros Hgood Hrun1 Hrun2.
  destruct (rotateMatrix_good_cells m clockwise m1 Hgood Hrun1)
    as (Hgood1 & Hlen1 & Hcols1 & Hcells1).
  destruct (rotateMatrix_good_cells m1 clockwise m2 Hgood1 Hrun2)
    as (Hgood2 & Hlen2 & Hcols2 & Hcells2).
  split; [done|]. split; [congruence|]. split; [congruence|].
  intros r c Hr Hc. rewrite <- (Hcells1 r c Hr Hc).
  destruct (rotateTarget_range clockwise (length m) (cols0 m) r c Hr Hc)
    as [Hi Hj].
  rewrite <- Hcells2 by lia. rewrite Hlen1, Hcols1.
  destruct clockwise; simpl in *; f_equal; lia.
Qed.

Lemma rotateTimes_four m clockwise :
  goodShape m → rotateTimes 4 clockwise m = Some m.
Proof.
  intros Hgood. unfold rotateTimes. simpl.
  destruct (rotateMatrix_runs m clockwise Hgood) as [m1 H1].
  pose proof (rotateMatrix_good _ _ _ Hgood H1) as Hgood1.
  destruct (rotateMatrix_runs m1 clockwise Hgood1) as [m2 H2].
  destruct (rotateMatrix_half_turn m clockwise m1 m2 Hgood H1 H2)
    as (Hgood2 & Hlen2 & Hcols2 & Hcells2).
  destruct (rotateMatrix_runs m2 clockwise Hgood2) as [m3 H3].
  pose proof (rotateMatrix_good _ _ _ Hgood2 H3) as Hgood3.
  destruct (rotateMatrix_runs m3 clockwise Hgood3) as [m4 H4].
  destruct (rotateMatrix_half_turn m2 clockwise m3 m4 Hgood2 H3 H4)
    as (Hgood4 & Hlen4 & Hcols4 & Hcells4).
  rewrite H1. simpl. rewrite H2. simpl. rewrite H3. simpl. rewrite H4.
  f_equal. apply (matrix_ext m4 m (length m) (cols0 m)).
  - rewrite (goodShape_dims m4 Hgood4). congruence.
  - by apply goodShape_dims.
  - intros r c Hr Hc. rewrite <- (Hcells2 r c Hr Hc).
    rewrite <- Hcells4 by lia. rewrite Hlen2, Hcols2. f_equal; lia.
Qed.

(** X10. On every rectangular matrix with a row and a column, a rotation
    followed by the rotation the other way gives the matrix back, four
    rotations the same way give it back, and two clockwise rotations give
    what two counter-clockwise ones give. *)
Theorem rotateMatrix_round_trip (m : Matrix) (clockwise : bool) :
  goodShape m →
  (rotateMatrix m clockwise ≫= λ m', rotateMatrix m' (negb clockwise))
    = Some m ∧
  rotateTimes 4 clockwise m = Some m ∧
  rotateTimes 2 clockwise m = rotateTimes 2 (negb clockwise) m.
Proof.
  intros Hgood. split; [|split].
  - destruct (rotateMatrix_runs m clockwise Hgood) as [m1 H1].
    rewrite H1. simpl. by eapply rotateMatrix_back.
  - by apply rotateTimes_four.
  - unfold rotateTimes. simpl.
    destruct (rotateMatrix_runs m clockwise Hgood) as [m1 H1].
    pose proof (rotateMatrix_good _ _ _ Hgood H1) as Hgood1.
    destruct (rotateMatrix_runs m1 clockwise Hgood1) as [m2 H2].
    destruct (rotateMatrix_runs m (negb clockwise) Hgood) as [n1 G1].
    pose proof (rotateMatrix_good _ _ _ Hgood G1) as Hgoodn1.
    destruct (rotateMatrix_runs n1 (negb clockwise) Hgoodn1) as [n2 G2].
    destruct (rotateMatrix_half_turn m clockwise m1 m2 Hgood H1 H2)
      as (Hgood2 & Hlen2 & Hcols2 & Hcells2).
    destruct (rotateMatrix_half_turn m (negb clockwise) n1 n2 Hgood G1 G2)
      as (Hgoodn2 & Hlenn2 & Hcolsn2 & Hcellsn2).
    rewrite H1, G1. simpl. rewrite H2, G2. f_equal.
    apply (matrix_ext m2 n2 (length m) (cols0 m)).
    + rewrite (goodShape_dims m2 Hgood2). congruence.
    + rewrite (goodShape_dims n2 Hgoodn2). congruence.
    + intros r c Hr Hc.
      specialize (Hcells2 (length m - 1 - r)%nat (cols0 m - 1 - c)%nat).
      specialize (Hcellsn2 (length m - 1 - r)%nat (cols0 m - 1 - c)%nat).
      replace (length m - 1 - (length m - 1 - r))%nat with r in * by lia.
      replace (cols0 m - 1 - (cols0 m - 1 - c))%nat with c in * by lia.
      rewrite Hcells2, Hcellsn2 by lia. done.
Qed.

Lemma rotateMatrix_round_trip_witness :
  rotateTimes 4 false [[1; 0; 0; 0]; [1; 1; 1; 1]; [0; 0; 1; 0]]
  = Some [[1; 0; 0; 0]; [1; 1; 1; 1]; [0; 0; 1; 0]].
Proof.
  refine (proj1 (proj2 (rotateMatrix_round_trip
    [[1; 0; 0; 0]; [1; 1; 1; 1]; [0; 0; 1; 0]] false _))).
  split; [repeat constructor | vm_compute; lia].
Defined.

Lemma rotatedSlot_back clockwise slot slot1 slot2 :
  (∀ piece, slot = Some piece → goodShape (shape piece)) →
  rotatedSlot clockwise slot slot1 →
  rotatedSlot (negb clockwise) slot1 slot2 →
  slot2 = slot.
Proof.
  intros Hgood H1 H2.
  destruct slot as [[sh co]|], slot1 as [[sh1 co1]|], slot2 as [[sh2 co2]|];
    try done.
  destruct H1 as [Hco1 Hsh1], H2 as [Hco2 Hsh2]. simpl in *.
  rewrite (rotateMatrix_back sh clockwise sh1) in Hsh2;
    [|exact (Hgood (mkPiece sh co) eq_refl)|done].
  congruence.
Qed.

(** X11. [rotateAllPieces] one way and then the other way gives back the
    tray, piece by piece, and touches neither the grid nor the score, the
    level or the high score. *)
Theorem rotateAllPieces_round_trip (g : Game) (clockwise : bool) :
  wf_game g →
  ∃ g1 g2,
    rotateAllPieces clockwise g = Some g1 ∧
    rotateAllPieces (negb clockwise) g1 = Some g2 ∧
    activePieces g2 = activePieces g ∧ grid g2 = grid g ∧
    score g2 = score g ∧ level g2 = level g ∧ highScore g2 = highScore g.
Proof.
  intros Hwf.
  destruct (rotateAllPieces_runs clockwise g Hwf) as [g1 H1].
  pose proof (rotateAllPieces_wf _ _ _ H1 Hwf) as Hwf1.
  destruct (rotateAllPieces_runs (negb clockwise) g1 Hwf1) as [g2 H2].
  exists g1, g2. split; [done|]. split; [done|].
  destruct (rotateAllPieces_frame _ _ _ H1) as (Hs1 & Hl1 & Hh1 & Hg1).
  destruct (rotateAllPieces_frame _ _ _ H2) as (Hs2 & Hl2 & Hh2 & Hg2).
  split; [|by rewrite Hg2, Hs2, Hl2, Hh2].
  pose proof (rotateAllPieces_slots _ _ _ H1) as Hslots1.
  pose proof (rotateAllPieces_slots _ _ _ H2) as Hslots2.
  destruct Hwf as [_ Hshapes]. rewrite Forall_forall in Hshapes.
  apply list_eq_same_length with (length (activePieces g)); [done| |].
  - rewrite <- (Forall2_length _ _ _ Hslots2).
    by rewrite <- (Forall2_length _ _ _ Hslots1).
  - intros i slot2 slot _ Hi2 Hi.
    destruct (Forall2_lookup_l _ _ _ _ _ Hslots1 Hi) as (slot1 & Hi1 & Hrot1).
    pose proof (Forall2_lookup_lr _ _ _ _ _ _ Hslots2 Hi1 Hi2) as Hrot2.
    eapply rotatedSlot_back; [|done..].
    apply Hshapes. by eapply list_elem_of_lookup_2.
Qed.

Lemma rotateAllPieces_round_trip_witness :
  ∃ g1 g2,
    rotateAllPieces true checkerGame = Some g1 ∧
    rotateAllPieces false g1 = Some g2 ∧
    activePieces g2 = activePieces checkerGame ∧
    grid g2 = grid checkerGame ∧ score g2 = score checkerGame ∧
    level g2 = level checkerGame ∧ highScore g2 = highScore checkerGame.
Proof.
  apply (rotateAllPieces_round_trip checkerGame true).
  split; [split; [reflexivity | repeat constructor]|].
  repeat apply Forall_cons_2; [..|apply Forall_nil_2]; intros piece [= <-].
  split; [repeat constructor | vm_compute; lia].
Defined.

(** ** The score of a session *)






(** ** A drop, from the grid before to the state after *)

(** X13. A line clear only empties cells: on an 8x8 grid [checkForLines]
    runs to its end, and a piece that validated at an anchor before the
    clear validates there after it. *)
Theorem clear_keeps_placements (g : Game) (col row : Z) (piece : Piece) :
  wf_grid (grid g) → rectangular (shape piece) →
  isValidPlacement (grid g) col row (Some piece) = true →
  ∃ g', checkForLines g = Some g' ∧
        isValidPlacement (grid g') col row (Some piece) = true.
Proof.
  intros Hwf Hrect Hvalid.
  destruct (checkForLines_grid g Hwf) as (g' & Hrun & _).
  exists g'. split; [done|]. by eapply checkForLines_keeps_valid.
Qed.

Lemma clear_keeps_placements_witness :
  ∃ g', checkForLines rowZeroGame = Some g' ∧
        isValidPlacement (grid g') 3 1 (Some squarePiece) = true.
Proof.
  apply (clear_keeps_placements rowZeroGame 3 1 squarePiece).
  - split; [reflexivity | repeat constructor].
  - repeat constructor.
  - reflexivity.
Defined.

(** X14. The grid [placePiece] leaves after a validated placement, read
    off the grid before: a cell of a row or column that the placement made
    full is empty; any other target of an occupied cell of the piece holds
    the colour of the piece; every other cell is as it was. *)
Theorem placePiece_grid (g : Game) (col row : Z) (piece : Piece) :
  wf_grid (grid g) → rectangular (shape piece) →
  isValidPlacement (grid g) col row (Some piece) = true →
  ∃ placed g',
    fillCells col row piece (grid g) = Some placed ∧
    placePiece col row piece g = Some g' ∧
    wf_grid (grid g') ∧
    ∀ i j,
      ((i, j) ∈ cellsToClear (rowsToClear placed) (colsToClear placed) →
         at2 (grid g') i j = Some None) ∧
      ((i, j) ∉ cellsToClear (rowsToClear placed) (colsToClear placed) →
         (covered piece col row i j →
            at2 (grid g') i j = Some (Some (color piece))) ∧
         (¬ covered piece col row i j →
            at2 (grid g') i j = at2 (grid g) i j)).
Proof.
  intros Hwf Hrect Hvalid.
  destruct (fillCells_cells col row piece (grid g) Hwf Hrect Hvalid)
    as (placed & Hfill & Hplaced & Hdone & Hframe).
  destruct (checkForLines_grid (with_grid g placed) Hplaced)
    as (g' & Hlines & _).
  destruct (checkForLines_cells (with_grid g placed) g' Hplaced Hlines)
    as [Hwf' Hcells]. simpl in Hcells.
  exists placed, g'. split; [done|]. split.
  { unfold placePiece. by rewrite Hfill. }
  split; [done|]. intros i j. rewrite Hcells. split.
  - intros Hin. by rewrite decide_True.
  - intros Hout. rewrite decide_False by done. split.
    + intros (r & c & Hocc & Hi & Hj). specialize (Hdone r c Hocc).
      replace (Z.to_nat (row + Z.of_nat r)) with i in * by lia.
      replace (Z.to_nat (col + Z.of_nat c)) with j in * by lia.
      done.
    + intros Hnot. by destruct (Hframe i j).
Qed.

Lemma placePiece_grid_witness :
  ∃ placed g',
    fillCells 0 0 squarePiece (grid fourLinesGame) = Some placed ∧
    placePiece 0 0 squarePiece fourLinesGame = Some g' ∧
    wf_grid (grid g').
Proof.
  destruct (placePiece_grid fourLinesGame 0 0 squarePiece)
    as (placed & g' & Hfill & Hplace & Hwf & _).
  - split; [reflexivity | repeat constructor].
  - repeat constructor.
  - reflexivity.
  - exists placed, g'. split; [exact Hfill|]. split; [exact Hplace | exact Hwf].
Defined.

(** ** Rotation moves the blocks, one to one *)

(** X16. A rotation neither adds nor drops a block: every occupied cell of
    the matrix is occupied at its target in the rotated matrix, every
    occupied cell of the rotated matrix is the target of an occupied cell,
    and two cells of the matrix have different targets. *)
Theorem rotateMatrix_moves_blocks (m : Matrix) (clockwise : bool) :
  goodShape m →
  ∃ m', rotateMatrix m clockwise = Some m' ∧
    (∀ r c, occupied m r c →
       occupied m' (rotateTarget clockwise (length m) (cols0 m) r c).1
                   (rotateTarget clockwise (length m) (cols0 m) r c).2) ∧
    (∀ i j, occupied m' i j →
       ∃ r c, occupied m r c ∧
              rotateTarget clockwise (length m) (cols0 m) r c = (i, j)) ∧
    (∀ r c r' c',
       (r < length m)%nat → (c < cols0 m)%nat →
       (r' < length m)%nat → (c' < cols0 m)%nat →
       rotateTarget clockwise (length m) (cols0 m) r c =
       rotateTarget clockwise (length m) (cols0 m) r' c' →
       r = r' ∧ c = c').
Proof.
  intros Hgood. destruct (rotateMatrix_runs m clockwise Hgood) as [m' Hrun].
  destruct (rotateMatrix_good_cells m clockwise m' Hgood Hrun)
    as ((Hrect' & _) & Hlen & Hcols & Hcells).
  destruct Hgood as (Hrect & _).
  exists m'. split; [done|]. split; [|split].
  - intros r c Hocc. destruct (at2_bounds _ _ _ _ Hrect Hocc) as [Hr Hc].
    unfold occupied. by rewrite Hcells.
  - intros i j Hocc. destruct (at2_bounds _ _ _ _ Hrect' Hocc) as [Hi Hj].
    rewrite Hlen in Hi. rewrite Hcols in Hj. unfold occupied in *.
    destruct clockwise.
    + exists (length m - 1 - j)%nat, i. split.
      * rewrite <- Hocc, <- (Hcells (length m - 1 - j)%nat i) by lia.
        simpl. f_equal. lia.
      * simpl. f_equal. lia.
    + exists j, (cols0 m - 1 - i)%nat. split.
      * rewrite <- Hocc, <- (Hcells j (cols0 m - 1 - i)%nat) by lia.
        simpl. f_equal. lia.
      * simpl. f_equal. lia.
  - intros r c r' c' Hr Hc Hr' Hc'. by apply rotateTarget_inj.
Qed.

Lemma rotateMatrix_moves_blocks_witness :
  ∃ m', rotateMatrix [[0; 1; 0]; [1; 1; 1]] false = Some m' ∧
        occupied m' 1 0.
Proof.
  destruct (rotateMatrix_moves_blocks [[0; 1; 0]; [1; 1; 1]] false)
    as (m' & Hrun & Hfwd & _).
  - split; [repeat constructor | vm_compute; lia].
  - exists m'. split; [exact Hrun|]. exact (Hfwd 0%nat 1%nat eq_refl).
Defined.

(** ** The colours of a session *)

Lemma emptyGrid_cells r c cell : at2 emptyGrid r c = Some cell → cell = None.
Proof.
  intros (row & Hrow & Hcell)%at2_Some. unfold emptyGrid in Hrow.
  apply lookup_replicate in Hrow as [-> _].
  by apply lookup_replicate in Hcell as [-> _].
Qed.

Lemma spawnPieces_palette d1 d2 d3 g g' :
  spawnPieces d1 d2 d3 g = Some g' →
  (∀ r c co, at2 (grid g) r c = Some (Some co) → co ∈ COLORS) →
  paletteOnly g'.
Proof.
  intros (p1 & p2 & p3 & H1 & H2 & H3 & ->)%spawnPieces_inv Hgrid.
  destruct (checkGameOver_frame (with_pieces g [Some p1; Some p2; Some p3]))
    as (_ & _ & _ & Hg & Hp).
  unfold paletteOnly. rewrite Hg, Hp. simpl. split; [done|].
  intros [|[|[|i]]] piece [= <-];
    by eapply generateRandomPiece_pool.
Qed.

Lemma placePiece_palette col row piece g g1 :
  wf_grid (grid g) → rectangular (shape piece) →
  isValidPlacement (grid g) col row (Some piece) = true →
  placePiece col row piece g = Some g1 →
  color piece ∈ COLORS →
  (∀ r c co, at2 (grid g) r c = Some (Some co) → co ∈ COLORS) →
  ∀ r c co, at2 (grid g1) r c = Some (Some co) → co ∈ COLORS.
Proof.
  intros Hwf Hrect Hvalid Hplace Hcolor Hgrid i j co Hcell.
  destruct (fillCells_cells col row piece (grid g) Hwf Hrect Hvalid)
    as (placed & Hfill & Hplaced & Hdone & Hframe).
  unfold placePiece in Hplace. rewrite Hfill in Hplace. simpl in Hplace.
  destruct (checkForLines_cells (with_grid g placed) g1 Hplaced Hplace)
    as [_ Hcells]. simpl in Hcells.
  rewrite Hcells in Hcell. case_decide; [done|].
  destruct (Hframe i j) as [Hold | (r & c & Hocc & Hi & Hj)].
  - rewrite Hold in Hcell. by eapply Hgrid.
  - specialize (Hdone r c Hocc).
    replace (Z.to_nat (row + Z.of_nat r)) with i in * by lia.
    replace (Z.to_nat (col + Z.of_nat c)) with j in * by lia.
    congruence.
Qed.

Lemma reachable_palette g : reachable g → paletteOnly g.
Proof.
  induction 1 as [stored d1 d2 d3 g Hnew | g op g' Hreach IH Hstep].
  - unfold newGame in Hnew. eapply spawnPieces_palette; [done|].
    fields. rewrite updateScore_grid. simpl.
    by intros r c co ?%emptyGrid_cells.
  - destruct IH as [Hgrid Htray].
    destruct (reachable_session g Hreach) as (Hwf & (_ & _ & Hshapes) & _ & _).
    rewrite Forall_forall in Hshapes.
    destruct op as [index col row d1 d2 d3 | clockwise | d1 d2 d3];
      simpl in Hstep.
    + apply onUp_cases in Hstep
        as [[-> _] | (piece & g1 & Hslot & Hvalid & Hplace & Hend)]; [done|].
      destruct (Hshapes (Some piece)) with piece as [(Hrect & _) _];
        [by eapply list_elem_of_lookup_2 | done |].
      pose proof (placePiece_palette _ _ _ _ _ Hwf Hrect Hvalid Hplace
                    (Htray _ _ Hslot) Hgrid) as Hgrid1.
      destruct Hend as [[_ Hspawn] | [_ ->]].
      * by eapply spawnPieces_palette.
      * destruct (checkGameOver_frame
          (with_pieces g1 (<[index:=None]> (activePieces g))))
          as (_ & _ & _ & Hg & Hp).
        unfold paletteOnly. rewrite Hg, Hp. simpl. split; [done|].
        intros i piece' Hi.
        destruct (decide (i = index)) as [->|Hne].
        -- apply list_lookup_insert_Some in Hi as [(_ & [=] & _) | [? _]];
             done.
        -- rewrite list_lookup_insert_ne in Hi by done. by eapply Htray.
    + apply rotateAllPieces_inv in Hstep as (pieces & Hslots & ->).
      destruct (checkGameOver_frame (with_pieces g pieces))
        as (_ & _ & _ & Hg & Hp).
      unfold paletteOnly. rewrite Hg, Hp. simpl. split; [done|].
      intros i piece' Hi.
      destruct (Forall2_lookup_r _ _ _ _ _ Hslots Hi) as ([p|] & Hp' & Hrot);
        [|done].
      destruct Hrot as [-> _]. by eapply Htray.
    + unfold restartGame in Hstep. eapply spawnPieces_palette; [done|].
      fields. rewrite updateScore_grid. simpl.
      by intros r c co ?%emptyGrid_cells.
Qed.

(** X17. In every state of a session each filled cell of the grid and each
    piece of the tray has one of the six colours of [CONFIG.COLORS]. *)
Theorem palette_only (g : Game) :
  reachable g →
  (∀ r c co, at2 (grid g) r c = Some (Some co) → co ∈ COLORS) ∧
  (∀ i piece, activePieces g !! i = Some (Some piece) →
     color piece ∈ COLORS).
Proof. apply reachable_palette. Qed.

Lemma palette_only_witness : "#FF5733"%string ∈ COLORS.
Proof.
  exact (proj1 (palette_only checkerGame checkerGame_reachable)
               0%nat 0%nat "#FF5733"%string eq_refl).
Defined.
